(** * spaGO: label decoder of the sequence labeler and the RAN / DeltaRNN cells

A shallow embedding of
- [sequencelabeler]: [mergeEntities], [filterNotEntities];
- [ran]: [SetInitialState], [Forward], [LastState], [forward], [prev],
  [Importance], [scores];
- [deltarnn]: [SetInitialState], [Forward], [LastState], [forward],
  [prev].

Go strings are byte strings ([string]); Go [int] offsets are [Z]; a nil
pointer or nil interface value is [None]; a run-time panic of a pure
function is [None] of its result; [log.Fatal] is the [Fatal] result. *)

From Stdlib Require Import ZArith QArith Reals Qreals Lra String Ascii List Lia.
From stdpp Require Import base option list.

Open Scope string_scope.
Open Scope list_scope.

(** ** Go strings *)

(** [s[0]]: the first byte; indexing the empty string panics. *)
Definition byte0 (s : string) : option ascii :=
  match s with
  | EmptyString => None
  | String c _ => Some c
  end.

(** [s[2:]]: the string without its first two bytes; panics when
    [len(s) < 2]. *)
Definition slice2 (s : string) : option string :=
  match s with
  | String _ (String _ r) => Some r
  | _ => None
  end.

Module SequenceLabeler.

(** [tokenizers.OffsetsType]: a [Start] and an [End] position. *)
Record OffsetsType := mkOffsets { Start : Z; End_ : Z }.

(** [TokenLabel] embeds [tokenizers.StringOffsetsPair] (fields [String] and
    [Offsets], promoted by Go) and adds the [Label]. *)
Record TokenLabel := mkTokenLabel {
  String_ : string;
  Offsets : OffsetsType;
  Label : string
}.

(** The zero value [TokenLabel{}]. *)
Definition zeroTokenLabel : TokenLabel :=
  mkTokenLabel "" (mkOffsets 0 0) "".

(** The three locals of [mergeEntities] that live across loop iterations. *)
Record MergeState := mkMergeState {
  newTokens : list TokenLabel;
  buf : TokenLabel;
  text : string
}.

Definition initMerge : MergeState := mkMergeState [] zeroTokenLabel "".

(** One iteration of the loop of [mergeEntities]: the [switch] on
    [token.Label[0]], which has no default case. *)
Definition mergeStep (st : MergeState) (token : TokenLabel) : option MergeState :=
  match byte0 (Label token) with
  | None => None
  | Some c =>
    if Ascii.eqb c "O" then
      Some (mkMergeState (newTokens st ++ [token]) (buf st) (text st))
    else if Ascii.eqb c "S" then
      match slice2 (Label token) with
      | None => None
      | Some l =>
        let newToken := mkTokenLabel (String_ token) (Offsets token) l in
        Some (mkMergeState (newTokens st ++ [newToken]) (buf st) (text st))
      end
    else if Ascii.eqb c "B" then
      match slice2 (Label token) with
      | None => None
      | Some l =>
        let buf' := mkTokenLabel "" (mkOffsets (Start (Offsets token)) 0) l in
        Some (mkMergeState (newTokens st) buf' (String_ token))
      end
    else if Ascii.eqb c "I" then
      Some (mkMergeState (newTokens st) (buf st) (text st ++ " " ++ String_ token)%string)
    else if Ascii.eqb c "E" then
      let text' := (text st ++ " " ++ String_ token)%string in
      let buf' := mkTokenLabel text'
                    (mkOffsets (Start (Offsets (buf st))) (End_ (Offsets token)))
                    (Label (buf st)) in
      Some (mkMergeState (newTokens st ++ [buf']) buf' text')
    else Some st
  end.

(** The loop of [mergeEntities], from an arbitrary loop state. *)
Fixpoint mergeLoop (st : MergeState) (tokens : list TokenLabel) : option MergeState :=
  match tokens with
  | [] => Some st
  | token :: rest =>
    match mergeStep st token with
    | None => None
    | Some st' => mergeLoop st' rest
    end
  end.

Definition mergeEntities (tokens : list TokenLabel) : option (list TokenLabel) :=
  newTokens <$> mergeLoop initMerge tokens.

Definition filterNotEntities (tokens : list TokenLabel) : list TokenLabel :=
  List.filter (fun token => negb (String.eqb (Label token) "O")) tokens.

(** *** The BIOES scheme, as the specification words it

A tag is the bare [O], or one of the position prefixes [S], [B], [I],
[E] followed by [-] and a non-empty type. *)
Inductive Tag :=
| TagO
| TagS (ty : string)
| TagB (ty : string)
| TagI (ty : string)
| TagE (ty : string).

Definition parseTag (l : string) : option Tag :=
  if String.eqb l "O" then Some TagO
  else match l with
       | String p (String d ty) =>
         if Ascii.eqb d "-" && negb (String.eqb ty "") then
           if Ascii.eqb p "S" then Some (TagS ty)
           else if Ascii.eqb p "B" then Some (TagB ty)
           else if Ascii.eqb p "I" then Some (TagI ty)
           else if Ascii.eqb p "E" then Some (TagE ty)
           else None
         else None
       | _ => None
       end.

(** A sequence is well formed when every tag parses, every [B] is closed by
    an [E] of its own type with only [I] tags of that type in between, and
    [I] and [E] occur nowhere else. [opened] is the type of the entity in
    progress. *)
Fixpoint wellFormedFrom (opened : option string) (tokens : list TokenLabel) : bool :=
  match tokens with
  | [] => match opened with None => true | Some _ => false end
  | token :: rest =>
    match parseTag (Label token), opened with
    | Some TagO, None => wellFormedFrom None rest
    | Some (TagS _), None => wellFormedFrom None rest
    | Some (TagB ty), None => wellFormedFrom (Some ty) rest
    | Some (TagI ty), Some ty' => String.eqb ty ty' && wellFormedFrom (Some ty') rest
    | Some (TagE ty), Some ty' => String.eqb ty ty' && wellFormedFrom None rest
    | _, _ => false
    end
  end.

Definition wellFormedBIOES (tokens : list TokenLabel) : bool :=
  wellFormedFrom None tokens.

(** No [S] or [B] tag carries the type [O], the label that
    [filterNotEntities] reads as "not an entity". *)
Definition typeIsO (token : TokenLabel) : bool :=
  match byte0 (Label token), slice2 (Label token) with
  | Some c, Some ty => (Ascii.eqb c "S" || Ascii.eqb c "B") && String.eqb ty "O"
  | _, _ => false
  end.

Definition noEntityTypeO (tokens : list TokenLabel) : bool :=
  forallb (fun token => negb (typeIsO token)) tokens.

(** The output that a token contributes on its own, whatever the
    accumulator holds: an [O] token itself, an [S] token with its prefix
    stripped. *)
Definition standalone (token : TokenLabel) : list TokenLabel :=
  match byte0 (Label token) with
  | Some c =>
    if Ascii.eqb c "O" then [token]
    else if Ascii.eqb c "S" then
      match slice2 (Label token) with
      | Some l => [mkTokenLabel (String_ token) (Offsets token) l]
      | None => []
      end
    else []
  | None => []
  end.

(** The tag starts with the byte [c]. *)
Definition tagged (c : ascii) (token : TokenLabel) : bool :=
  match byte0 (Label token) with
  | Some c' => Ascii.eqb c' c
  | None => false
  end.

(** The labels on which [mergeStep] does not panic: a first byte exists,
    and an [S] or [B] tag has the two bytes that [Label[2:]] skips. *)
Definition labelOk (token : TokenLabel) : bool :=
  match byte0 (Label token) with
  | None => false
  | Some c =>
    if Ascii.eqb c "S" || Ascii.eqb c "B"
    then match slice2 (Label token) with Some _ => true | None => false end
    else true
  end.

(** The loop state with [filterNotEntities] applied to its output. *)
Definition filterOutput (st : MergeState) : MergeState :=
  mkMergeState (filterNotEntities (newTokens st)) (buf st) (text st).

(** The first bytes that the [switch] of [mergeEntities] has a case for. *)
Definition knownPrefix (c : ascii) : bool :=
  Ascii.eqb c "O" || Ascii.eqb c "S" || Ascii.eqb c "B" ||
  Ascii.eqb c "I" || Ascii.eqb c "E".

(** The tokens at which [mergeEntities] appends to its output. *)
Definition emits (token : TokenLabel) : bool :=
  tagged "O" token || tagged "S" token || tagged "E" token.

(** The example of the specification. *)
Definition newYork : list TokenLabel :=
  [ mkTokenLabel "New" (mkOffsets 0 3) "B-LOC";
    mkTokenLabel "York" (mkOffsets 4 8) "E-LOC";
    mkTokenLabel "is" (mkOffsets 9 11) "O";
    mkTokenLabel "big" (mkOffsets 12 15) "O" ].

(** A single-token entity whose type is spelled [O]. *)
Definition singleTypeO : list TokenLabel :=
  [ mkTokenLabel "x" (mkOffsets 0 1) "S-O" ].

(** A token with a tag outside the scheme, between two [O] tokens. *)
Definition unknownTag : TokenLabel := mkTokenLabel "York" (mkOffsets 4 8) "X-LOC".

(** An entity that is opened and never closed. *)
Definition openEntity : list TokenLabel :=
  [ mkTokenLabel "in" (mkOffsets 0 2) "O";
    mkTokenLabel "New" (mkOffsets 3 6) "B-LOC";
    mkTokenLabel "York" (mkOffsets 7 11) "I-LOC";
    mkTokenLabel "Bob" (mkOffsets 12 15) "S-PER" ].

(** The text that a [B] token followed by [rest] leaves in the buffer:
    the texts joined by single spaces. *)
Definition joinText (b : TokenLabel) (rest : list TokenLabel) : string :=
  fold_left (fun acc t => (acc ++ " " ++ String_ t)%string) rest (String_ b).

(** [tokenizers.StringOffsetsPair]: a token and its position in the text. *)
Record StringOffsetsPair := mkPair {
  PairString : string;
  PairOffsets : OffsetsType
}.

Section Model.
(** The collaborators of the model, at their boundary:
    [basetokenizer.New().Tokenize], and [EmbeddingsLayer.Encode] followed by
    [TaggerLayer.Predict], which maps the words to label indices. *)
Variable Tokenize : string -> list StringOffsetsPair.
Variable Predict : list string -> list Z.

(** [m.Labels]. *)
Variable Labels : list string.

(** [m.Labels[labelIndex]]: panics on an index that is negative or past
    the end. *)
Definition labelAt (labelIndex : Z) : option string :=
  if (labelIndex <? 0)%Z then None else Labels !! Z.to_nat labelIndex.

(** The loop of [Forward] over [prediction], from position [i]: the
    assignment [result[i] = TokenLabel{tokens[i], m.Labels[labelIndex]}]
    panics when [i] is past the end of [tokens] (and of [result], which
    has the same length). *)
Fixpoint labelLoop (tokens : list StringOffsetsPair) (i : nat)
         (prediction : list Z) (result : list TokenLabel) : option (list TokenLabel) :=
  match prediction with
  | [] => Some result
  | labelIndex :: rest =>
    token ← tokens !! i;
    label ← labelAt labelIndex;
    labelLoop tokens (S i) rest
      (<[i := mkTokenLabel (PairString token) (PairOffsets token) label]> result)
  end.

Definition Forward (tokens : list StringOffsetsPair) : option (list TokenLabel) :=
  let words := PairString <$> tokens in
  let prediction := Predict words in
  labelLoop tokens 0 prediction (replicate (length tokens) zeroTokenLabel).

(** [Analyze]; its two flags are named after the methods they switch on. *)
Definition Analyze (text : string) (merge filterNot : bool) : option (list TokenLabel) :=
  let tokenized := Tokenize text in
  result ← Forward tokenized;
  result ← (if merge then mergeEntities result else Some result);
  Some (if filterNot then filterNotEntities result else result).
End Model.

(** [labelOk] as a test on the tag alone. *)
Definition tagOk (l : string) : bool :=
  labelOk (mkTokenLabel "" (mkOffsets 0 0) l).

(** An output token that an [E] tag produced from an accumulator that no
    [B] tag has set: no type, start offset 0, and a text that begins
    with the separating space. *)
Definition strayEntity (o : TokenLabel) : Prop :=
  Label o = "" /\ Start (Offsets o) = 0%Z /\ exists r, String_ o = String " " r.

(** A sentence with one entity of three tokens and one of a single token. *)
Definition bobInNewYorkCity : list TokenLabel :=
  [ mkTokenLabel "Bob" (mkOffsets 0 3) "S-PER";
    mkTokenLabel "in" (mkOffsets 4 6) "O";
    mkTokenLabel "New" (mkOffsets 7 10) "B-LOC";
    mkTokenLabel "York" (mkOffsets 11 15) "I-LOC";
    mkTokenLabel "City" (mkOffsets 16 20) "E-LOC" ].

(** Its tokens, the label set of a model and a prediction for it. *)
Definition bobTokens : list StringOffsetsPair :=
  [ mkPair "Bob" (mkOffsets 0 3); mkPair "in" (mkOffsets 4 6);
    mkPair "New" (mkOffsets 7 10); mkPair "York" (mkOffsets 11 15);
    mkPair "City" (mkOffsets 16 20) ].

Definition bobLabels : list string :=
  [ "O"; "S-PER"; "B-LOC"; "I-LOC"; "E-LOC" ].

Definition bobPredict (words : list string) : list Z := [1; 0; 2; 3; 4]%Z.

(** An [E] and an [I] tag with no [B] before them. *)
Definition strayEnd : list TokenLabel :=
  [ mkTokenLabel "York" (mkOffsets 4 8) "E-LOC";
    mkTokenLabel "is" (mkOffsets 9 11) "O";
    mkTokenLabel "big" (mkOffsets 12 15) "I-LOC" ].

End SequenceLabeler.

(** ** The computation graph, at its boundary

The cells build their result by calling the operators of [ag.Graph] on
[ag.Node] values. The graph engine is an external collaborator: the
cells are embedded over any implementation of its operators, so every
statement about them holds for every engine. *)
Class Graph (Node : Type) := {
  Add : Node -> Node -> Node;        (* element-wise sum *)
  Sub : Node -> Node -> Node;        (* element-wise difference *)
  Prod : Node -> Node -> Node;       (* element-wise product *)
  Mul : Node -> Node -> Node;        (* matrix-vector product *)
  Sigmoid : Node -> Node;
  Tanh : Node -> Node;
  NewScalar : Q -> Node              (* a scalar constant, broadcast *)
}.

(** The matrices behind the nodes, as [scores] uses them: the element-wise
    product ([Prod], and [ProdInPlace] on a private clone) and the largest
    element ([Max]) of a [mat.Matrix]; [scalarZero] is the zero of a
    freshly made [[]float64]. *)
Class Matrix (V S : Type) := {
  matProd : V -> V -> V;
  matMax : V -> S;
  scalarZero : S
}.

(** The outcome of a call that may end in [log.Fatal]: the process exits
    with the message and nothing after the call runs. *)
Inductive Result (A : Type) :=
| Ok (a : A)
| Fatal (msg : string).
Arguments Ok {A} a.
Arguments Fatal {A} msg.

Section GraphHelpers.
Context {Node : Type} `{Graph Node}.

(** Modelled from the spec: [ag.Graph.ReverseSub], which is not among the
    sources. The step comment of [deltarnn] and the specification read
    [g.ReverseSub(p, g.NewScalar(1.0))] as [1 - p]: the second argument
    minus the first. *)
Definition ReverseSub (x1 x2 : Node) : Node := Sub x2 x1.

(** Modelled from the spec: [nn.Affine], which is not among the sources.
    [Affine b w x [(w2, x2); ...]] is [w.x + w2.x2 + ... + b], where a
    pair whose [x] is nil (the recurrent term on the first step) is
    treated as zero, that is, left out. *)
Definition Affine (b w x : Node) (rest : list (Node * option Node)) : Node :=
  Add (fold_left (fun y wx => match snd wx with
                              | Some xk => Add y (Mul (fst wx) xk)
                              | None => y
                              end) rest (Mul w x)) b.
End GraphHelpers.

Module Ran.
Section Ran.
Context {Node : Type} `{Graph Node}.

(** The serializable parameters. *)
Record Model := mkModel {
  WIn : Node; WInRec : Node; BIn : Node;
  WFor : Node; WForRec : Node; BFor : Node;
  WCand : Node; BCand : Node
}.

(** A state of the network; a field that was never assigned is nil. *)
Record State := mkState {
  InG : option Node;
  ForG : option Node;
  Cand : option Node;
  C : option Node;
  Y : option Node
}.

(** The processor: its model and the history [States []*State]. *)
Record Processor := mkProcessor {
  model : Model;
  States : list (option State)
}.

Definition NewProc (m : Model) : Processor := mkProcessor m [].

Definition SetInitialState (p : Processor) (state : option State) : Result Processor :=
  if (0 <? length (States p))%nat
  then Fatal "ran: the initial state must be set before any input"
  else Ok (mkProcessor (model p) (States p ++ [state])).

(** [p.States[n-1]], or nil when there are no states. *)
Definition LastState (p : Processor) : option State :=
  match length (States p) with
  | O => None
  | S n => mjoin (States p !! n)
  end.

Definition prev (p : Processor) : option Node * option Node :=
  match LastState p with
  | Some s => (Y s, Y s)
  | None => (None, None)
  end.

Definition forward (p : Processor) (x : Node) : State :=
  let m := model p in
  let '(yPrev, cPrev) := prev p in
  let inG := Sigmoid (Affine (BIn m) (WIn m) x [(WInRec m, yPrev)]) in
  let forG := Sigmoid (Affine (BFor m) (WFor m) x [(WForRec m, yPrev)]) in
  let cand := Affine (BCand m) (WCand m) x [] in
  let c := Prod inG cand in
  let c := match cPrev with
           | Some cP => Add c (Prod forG cP)
           | None => c
           end in
  mkState (Some inG) (Some forG) (Some cand) (Some c) (Some (Tanh c)).

(** [Forward]: the outputs and the processor with its grown history. *)
Fixpoint Forward (p : Processor) (xs : list Node) : list (option Node) * Processor :=
  match xs with
  | [] => ([], p)
  | x :: rest =>
    let s := forward p x in
    let p' := mkProcessor (model p) (States p ++ [Some s]) in
    let '(ys, p'') := Forward p' rest in
    (Y s :: ys, p'')
  end.

Section Importance.
Context {V F : Type} `{Matrix V F} (Value : Node -> V).

(** [states[k]] dereferenced: an index out of range or a nil pointer
    panics. *)
Definition stateAt (states : list (option State)) (k : nat) : option State :=
  mjoin (states !! k).

(** [n.Value()]: panics on a nil node. *)
Definition valueOf (n : option Node) : option V := Value <$> n.

(** The loop of [scores], from index [k] down to 0, with the running
    [incForgetProd]; it returns the scores and the last accumulator. *)
Fixpoint scoresLoop (states : list (option State)) (k : nat)
         (incForgetProd : V) (scores : list F) : option (list F * V) :=
  s ← stateAt states k;
  inG ← valueOf (InG s);
  forG ← valueOf (ForG s);
  let scores' := <[k := matMax (matProd inG incForgetProd)]> scores in
  match k with
  | O => Some (scores', incForgetProd)
  | S k' => scoresLoop states k' (matProd incForgetProd forG) scores'
  end.

(** The body of [scores(i)], with the accumulator kept. The clone of
    [states[i].ForG.Value()] is private to the call, so the in-place
    product never writes into a state. [Importance] calls [scores] with
    the indices of [p.States]; an index is a [nat], and one past the end
    panics. *)
Definition scoresRun (p : Processor) (i : nat) : option (list F * V) :=
  let states := States p in
  s ← stateAt states i;
  incForgetProd ← valueOf (ForG s);
  scoresLoop states i incForgetProd (replicate (length states) scalarZero).

Definition scores (p : Processor) (i : nat) : option (list F) :=
  fst <$> scoresRun p i.

(** The accumulator [incForgetProd] when [scores(i)] returns. *)
Definition scoresAcc (p : Processor) (i : nat) : option V :=
  snd <$> scoresRun p i.

(** [Importance]: one row of scores per state. *)
Definition Importance (p : Processor) : option (list (list F)) :=
  mapM (scores p) (seq 0 (length (States p))).

(** The input and forget gate values of a history in which every
    state and both gates are present. *)
Definition gateValues (states : list (option State)) : option (list (V * V)) :=
  mapM (fun os => s ← os; inG ← valueOf (InG s); forG ← valueOf (ForG s);
                  Some (inG, forG)) states.

(** The specification's words for the accumulator of row [i]: the
    element-wise product of [forG[0]], ..., [forG[i]]. *)
Definition forgetProduct (forGs : list V) (i : nat) : option V :=
  if (i <? length forGs)%nat then
    match take (S i) forGs with
    | f0 :: fs => Some (fold_left matProd fs f0)
    | [] => None
    end
  else None.

End Importance.
End Ran.
Arguments Model Node : clear implicits.
Arguments State Node : clear implicits.
Arguments Processor Node : clear implicits.
End Ran.

Module DeltaRNN.
Section DeltaRNN.
Context {Node : Type} `{Graph Node}.

(** The serializable parameters. *)
Record Model := mkModel {
  W : Node; WRec : Node; B : Node; BPart : Node;
  Alpha : Node; Beta1 : Node; Beta2 : Node
}.

(** A state of the network; a field that was never assigned is nil. *)
Record State := mkState {
  D1 : option Node;
  D2 : option Node;
  C : option Node;
  P : option Node;
  Y : option Node
}.

Record Processor := mkProcessor {
  model : Model;
  States : list (option State)
}.

Definition NewProc (m : Model) : Processor := mkProcessor m [].

Definition SetInitialState (p : Processor) (state : option State) : Result Processor :=
  if (0 <? length (States p))%nat
  then Fatal "deltarnn: the initial state must be set before any input"
  else Ok (mkProcessor (model p) (States p ++ [state])).

Definition LastState (p : Processor) : option State :=
  match length (States p) with
  | O => None
  | S n => mjoin (States p !! n)
  end.

Definition prev (p : Processor) : option Node :=
  match LastState p with
  | Some s => Y s
  | None => None
  end.

Definition forward (p : Processor) (x : Node) : State :=
  let m := model p in
  let wx := Mul (W m) x in
  match prev p with
  | None =>
    let d1 := Prod (Beta1 m) wx in
    let c := Tanh (Add d1 (B m)) in
    let pG := Sigmoid (Add wx (BPart m)) in
    let y := Tanh (Prod pG c) in
    mkState (Some d1) None (Some c) (Some pG) (Some y)
  | Some yPrev =>
    let wyRec := Mul (WRec m) yPrev in
    let d1 := Add (Prod (Beta1 m) wx) (Prod (Beta2 m) wyRec) in
    let d2 := Prod (Prod (Alpha m) wx) wyRec in
    let c := Tanh (Add (Add d1 d2) (B m)) in
    let pG := Sigmoid (Add wx (BPart m)) in
    let y := Tanh (Add (Prod pG c) (Prod (ReverseSub pG (NewScalar 1)) yPrev)) in
    mkState (Some d1) (Some d2) (Some c) (Some pG) (Some y)
  end.

Fixpoint Forward (p : Processor) (xs : list Node) : list (option Node) * Processor :=
  match xs with
  | [] => ([], p)
  | x :: rest =>
    let s := forward p x in
    let p' := mkProcessor (model p) (States p ++ [Some s]) in
    let '(ys, p'') := Forward p' rest in
    (Y s :: ys, p'')
  end.
End DeltaRNN.
Arguments Model Node : clear implicits.
Arguments State Node : clear implicits.
Arguments Processor Node : clear implicits.
End DeltaRNN.

(** ** Engines for concrete runs *)

(** The graph itself: a node is the expression that the operators built. *)
Inductive Expr :=
| EVar (name : string)
| EAdd (a b : Expr)
| ESub (a b : Expr)
| EProd (a b : Expr)
| EMul (a b : Expr)
| ESigmoid (a : Expr)
| ETanh (a : Expr)
| EScalar (q : Q).

#[export] Instance ExprGraph : Graph Expr := {|
  Add := EAdd; Sub := ESub; Prod := EProd; Mul := EMul;
  Sigmoid := ESigmoid; Tanh := ETanh; NewScalar := EScalar
|}.

(** Real numbers as one-by-one matrices, with the logistic function. *)
Definition sigmoid (x : R) : R := (1 / (1 + exp (- x)))%R.

#[export] Instance RGraph : Graph R := {|
  Add := Rplus; Sub := Rminus; Prod := Rmult; Mul := Rmult;
  Sigmoid := sigmoid; Tanh := tanh; NewScalar := Q2R
|}.

(** Bring the argument of every [sigmoid] in the goal to 0 or 1. *)
Ltac sigmoid_args :=
  repeat match goal with
         | |- context [sigmoid ?a] =>
           lazymatch a with
           | 0%R => fail
           | 1%R => fail
           | _ => first [ replace a with 0%R by ring | replace a with 1%R by ring ]
           end
         end.

#[export] Instance RMatrix : Matrix R R := {|
  matProd := Rmult; matMax := fun v => v; scalarZero := 0%R
|}.

(** Vectors of rationals with the element-wise product. *)
Definition qmax (a b : Q) : Q := if Qle_bool a b then b else a.

#[export] Instance QMatrix : Matrix (list Q) Q := {|
  matProd := zip_with Qmult;
  matMax := fun v => match v with [] => 0%Q | x :: r => fold_left qmax r x end;
  scalarZero := 0%Q
|}.

Module RanExamples.
Import Ran.

(** A model over the graph of expressions, each parameter a variable. *)
Definition ranModel : Model Expr :=
  mkModel (EVar "WIn") (EVar "WInRec") (EVar "BIn")
          (EVar "WFor") (EVar "WForRec") (EVar "BFor")
          (EVar "WCand") (EVar "BCand").

(** The history after [Forward(x0, x1)] on a fresh processor, and its two
    states. *)
Definition twoSteps : Processor Expr :=
  snd (Forward (NewProc ranModel) [EVar "x0"; EVar "x1"]).

Definition step0 : State Expr := forward (NewProc ranModel) (EVar "x0").

Definition step1 : State Expr :=
  forward (mkProcessor ranModel [Some step0]) (EVar "x1").

(** [New(1, 1)] with the candidate bias set to 2, and the history after
    [Forward(0, 0)] on a fresh processor: the first cell value is 1. *)
Definition candModel : Model R :=
  mkModel 0%R 0%R 0%R 0%R 0%R 0%R 0%R 2%R.

Definition encodedCell : Processor R :=
  snd (Forward (NewProc candModel) [0%R; 0%R]).

(** [New(1, 1)] with the forget weight set to 1, and the history after
    [Forward(0, 1)] on a fresh processor: the forget gates are
    [sigmoid(0)] and [sigmoid(1)]. *)
Definition forgetModel : Model R :=
  mkModel 0%R 0%R 0%R 1%R 0%R 0%R 0%R 0%R.

Definition encodedForget : Processor R :=
  snd (Forward (NewProc forgetModel) [0%R; 1%R]).

(** The specification's words for the cell value of a step after the
    state [sPrev]: [inG * cand + forG * cPrev], with [cPrev] the field
    [C] of [sPrev]. *)
Definition specCell {Node : Type} `{Graph Node} (s sPrev : State Node) : option Node :=
  inG ← InG s; cand ← Cand s; forG ← ForG s; cPrev ← C sPrev;
  Some (Add (Prod inG cand) (Prod forG cPrev)).

(** Two processors seeded with initial states that have the same output
    and different cell values. *)
Definition seededA : Processor Expr :=
  mkProcessor ranModel
    [Some (mkState None None None (Some (EVar "cA")) (Some (EVar "y")))].

Definition seededB : Processor Expr :=
  mkProcessor ranModel
    [Some (mkState None None None (Some (EVar "cB")) (Some (EVar "y")))].

(** Two states with the forget gates 1/2 and 1/4, over vectors of
    rationals that are their own values. *)
Definition qModel : Model (list Q) :=
  mkModel [] [] [] [] [] [] [] [].

Definition halfQuarter : Processor (list Q) :=
  mkProcessor qModel
    [ Some (mkState (Some [1#2]) (Some [1#2]) (Some [0%Q]) (Some [0%Q]) (Some [0%Q]));
      Some (mkState (Some [1#2]) (Some [1#4]) (Some [0%Q]) (Some [0%Q]) (Some [0%Q])) ].
End RanExamples.

Module DeltaRNNExamples.
Import DeltaRNN.

Definition deltaModel : Model Expr :=
  mkModel (EVar "W") (EVar "WRec") (EVar "B") (EVar "BPart")
          (EVar "Alpha") (EVar "Beta1") (EVar "Beta2").

(** The history after [Forward(x0)] on a fresh processor. *)
Definition oneStep : Processor Expr :=
  snd (Forward (NewProc deltaModel) [EVar "x0"]).
End DeltaRNNExamples.

(** * Properties *)

(** ** Label decoder *)

Section LabelDecoder.
Import SequenceLabeler.

Lemma mergeLoop_app st tokens1 tokens2 :
  mergeLoop st (tokens1 ++ tokens2) =
  mergeLoop st tokens1 ≫= fun st' => mergeLoop st' tokens2.
Proof.
  revert st. induction tokens1 as [|t ts IH]; intros st; simpl; [done|].
  destruct (mergeStep st t) as [st'|]; simpl; [apply IH | done].
Qed.

Lemma filterNotEntities_app l1 l2 :
  filterNotEntities (l1 ++ l2) = filterNotEntities l1 ++ filterNotEntities l2.
Proof. apply List.filter_app. Qed.

Lemma mergeStep_total st token :
  labelOk token = true -> is_Some (mergeStep st token).
Proof.
  unfold labelOk, mergeStep. destruct (byte0 (Label token)) as [c|]; [|done].
  destruct (Ascii.eqb c "O"); [eauto|].
  destruct (Ascii.eqb c "S"); simpl.
  { destruct (slice2 (Label token)); [eauto|done]. }
  destruct (Ascii.eqb c "B"); simpl.
  { destruct (slice2 (Label token)); [eauto|done]. }
  destruct (Ascii.eqb c "I"); [eauto|].
  destruct (Ascii.eqb c "E"); eauto.
Qed.

Lemma mergeLoop_total tokens st :
  forallb labelOk tokens = true -> is_Some (mergeLoop st tokens).
Proof.
  revert st. induction tokens as [|t ts IH]; intros st Hok; simpl in *; [eauto|].
  apply andb_prop in Hok as [Ht Hts].
  destruct (mergeStep_total st t Ht) as [st' ->]. by apply IH.
Qed.

Lemma filterNotEntities_snoc_keep l token :
  String.eqb (Label token) "O" = false ->
  filterNotEntities (l ++ [token]) = filterNotEntities l ++ [token].
Proof. intros Hl. rewrite filterNotEntities_app. simpl. by rewrite Hl. Qed.

Lemma filterNotEntities_snoc_drop l token :
  String.eqb (Label token) "O" = true ->
  filterNotEntities (l ++ [token]) = filterNotEntities l.
Proof.
  intros Hl. rewrite filterNotEntities_app. simpl. rewrite Hl. simpl.
  apply app_nil_r.
Qed.

(** A token that the filter keeps is merged alike before and after the
    filter, as long as no label [O] can come out of the accumulator. *)
Lemma mergeStep_filterOutput st token :
  String.eqb (Label token) "O" = false ->
  typeIsO token = false ->
  String.eqb (Label (buf st)) "O" = false ->
  mergeStep (filterOutput st) token = filterOutput <$> mergeStep st token /\
  (forall st', mergeStep st token = Some st' ->
               String.eqb (Label (buf st')) "O" = false).
Proof.
  intros Htok Hty Hbuf. unfold typeIsO in Hty. unfold mergeStep.
  destruct (byte0 (Label token)) as [c|]; simpl; [|done].
  destruct (Ascii.eqb c "O").
  { split; [|by intros st' [= <-]].
    unfold filterOutput. simpl. by rewrite filterNotEntities_snoc_keep. }
  destruct (Ascii.eqb c "S") eqn:HS.
  { destruct (slice2 (Label token)) as [l|]; simpl in *; [|done].
    split; [|by intros st' [= <-]].
    unfold filterOutput. simpl. by rewrite filterNotEntities_snoc_keep. }
  destruct (Ascii.eqb c "B") eqn:HB.
  { destruct (slice2 (Label token)) as [l|]; simpl in *; [|done].
    split; [done|]. by intros st' [= <-]. }
  destruct (Ascii.eqb c "I").
  { split; [done|]. by intros st' [= <-]. }
  destruct (Ascii.eqb c "E").
  { split; [|by intros st' [= <-]].
    unfold filterOutput. simpl. by rewrite filterNotEntities_snoc_keep. }
  split; [done|]. by intros st' [= <-].
Qed.

(** A token labelled exactly [O] leaves nothing behind once the output
    is filtered. *)
Lemma mergeStep_outside st token :
  String.eqb (Label token) "O" = true ->
  exists st', mergeStep st token = Some st' /\
              filterOutput st' = filterOutput st /\
              buf st' = buf st.
Proof.
  intros Htok. pose proof Htok as Heq. apply String.eqb_eq in Heq.
  unfold mergeStep. rewrite Heq. simpl.
  eexists; split; [done|]. split; [|done].
  unfold filterOutput. simpl. f_equal.
  apply filterNotEntities_snoc_drop. by rewrite Heq.
Qed.

Lemma mergeLoop_filter tokens st :
  noEntityTypeO tokens = true ->
  String.eqb (Label (buf st)) "O" = false ->
  mergeLoop (filterOutput st) (filterNotEntities tokens) =
  filterOutput <$> mergeLoop st tokens.
Proof.
  revert st. induction tokens as [|t ts IH]; intros st Hty Hbuf; simpl in *; [done|].
  apply andb_prop in Hty as [Ht Hts]. apply negb_true_iff in Ht.
  destruct (String.eqb (Label t) "O") eqn:Hlab; simpl.
  - destruct (mergeStep_outside st t Hlab) as (st' & -> & Hout & Hb).
    rewrite <- Hout. apply IH; [done|]. by rewrite Hb.
  - destruct (mergeStep_filterOutput st t Hlab Ht Hbuf) as [-> Hinv].
    destruct (mergeStep st t) as [st'|]; simpl; [|done].
    apply IH; [done|]. by apply Hinv.
Qed.

(** The two orders agree on every sequence, well formed or not, panics
    included, in which no [S] or [B] tag has the type [O]. *)
Lemma merge_filter_commute_any tokens :
  noEntityTypeO tokens = true ->
  mergeEntities (filterNotEntities tokens) =
  filterNotEntities <$> mergeEntities tokens.
Proof.
  intros Hty. unfold mergeEntities.
  change initMerge with (filterOutput initMerge) at 1.
  rewrite mergeLoop_filter; [|done|done].
  by destruct (mergeLoop initMerge tokens).
Qed.

Lemma parseTag_labelOk l tag :
  parseTag l = Some tag -> forall s o, labelOk (mkTokenLabel s o l) = true.
Proof.
  unfold parseTag, labelOk. simpl. intros Hp s o.
  destruct (String.eqb l "O") eqn:HO.
  { apply String.eqb_eq in HO. by subst. }
  destruct l as [|p [|d ty]]; try done. simpl.
  by destruct (Ascii.eqb p "S" || Ascii.eqb p "B").
Qed.

Lemma wellFormedFrom_labelOk tokens opened :
  wellFormedFrom opened tokens = true -> forallb labelOk tokens = true.
Proof.
  revert opened. induction tokens as [|[s o l] ts IH]; intros opened Hwf; simpl in *; [done|].
  destruct (parseTag l) as [tag|] eqn:Hp; [|done].
  rewrite (parseTag_labelOk l tag Hp). simpl.
  destruct tag, opened; try done; try (by eapply IH);
    apply andb_prop in Hwf as [_ Hwf]; by eapply IH.
Qed.

(** C3, amended: for every well-formed BIOES sequence in which no entity
    type is the bare [O], merging and then filtering returns the same
    entities, in the same order, as filtering and then merging; both
    orders return a result. *)
Theorem merge_filter_commute tokens :
  wellFormedBIOES tokens = true ->
  noEntityTypeO tokens = true ->
  exists entities,
    filterNotEntities <$> mergeEntities tokens = Some entities /\
    mergeEntities (filterNotEntities tokens) = Some entities.
Proof.
  intros Hwf Hty. apply wellFormedFrom_labelOk in Hwf.
  destruct (mergeLoop_total tokens initMerge Hwf) as [st Hst].
  exists (filterNotEntities (newTokens st)).
  rewrite merge_filter_commute_any by done.
  unfold mergeEntities. rewrite Hst. done.
Qed.

Lemma merge_filter_commute_witness :
  wellFormedBIOES newYork = true /\
  noEntityTypeO newYork = true /\
  exists entities,
    filterNotEntities <$> mergeEntities newYork = Some entities /\
    mergeEntities (filterNotEntities newYork) = Some entities.
Proof.
  split; [reflexivity|]. split; [reflexivity|].
  apply (merge_filter_commute newYork); reflexivity.
Defined.

(** C3, as stated, fails on the well-formed sequence [S-O]: merged first,
    the entity gets the label [O] and the filter drops it; filtered
    first, it is kept and then merged. *)
Lemma merge_filter_order_matters :
  wellFormedBIOES singleTypeO = true /\
  filterNotEntities <$> mergeEntities singleTypeO = Some [] /\
  mergeEntities (filterNotEntities singleTypeO) =
    Some [mkTokenLabel "x" (mkOffsets 0 1) "O"] /\
  filterNotEntities <$> mergeEntities singleTypeO <>
    mergeEntities (filterNotEntities singleTypeO).
Proof. repeat split; done. Qed.

(** C4: the tokens New, York, is, big with the tags B-LOC, E-LOC, O, O
    and the offsets (0,3), (4,8), (9,11), (12,15) merge to the entity
    New York of type LOC from 0 to 8, followed by the two [O] tokens as
    they were. *)
Theorem merge_new_york :
  mergeEntities newYork =
  Some [ mkTokenLabel "New York" (mkOffsets 0 8) "LOC";
         mkTokenLabel "is" (mkOffsets 9 11) "O";
         mkTokenLabel "big" (mkOffsets 12 15) "O" ].
Proof. reflexivity. Qed.

Lemma knownPrefix_false c :
  knownPrefix c = false ->
  Ascii.eqb c "O" = false /\ Ascii.eqb c "S" = false /\
  Ascii.eqb c "B" = false /\ Ascii.eqb c "I" = false /\
  Ascii.eqb c "E" = false.
Proof.
  unfold knownPrefix. intros Hk.
  repeat (apply orb_false_elim in Hk as [Hk ?]). done.
Qed.

(** C9: a token whose tag starts with a byte other than O, S, B, I, E
    leaves the whole loop state as it was (no output, same accumulator,
    same text buffer), and the rest of the sequence is decoded as if the
    token were not there. *)
Theorem merge_skips_unknown_prefix token c :
  byte0 (Label token) = Some c ->
  knownPrefix c = false ->
  (forall st, mergeStep st token = Some st) /\
  (forall pre post,
     mergeEntities (pre ++ token :: post) = mergeEntities (pre ++ post)).
Proof.
  intros Hc Hk.
  destruct (knownPrefix_false c Hk) as (HO & HS & HB & HI & HE).
  assert (Hstep : forall st, mergeStep st token = Some st).
  { intros st. unfold mergeStep. by rewrite Hc, HO, HS, HB, HI, HE. }
  split; [done|]. intros pre post. unfold mergeEntities.
  rewrite !mergeLoop_app. destruct (mergeLoop initMerge pre) as [st|]; simpl; [|done].
  by rewrite Hstep.
Qed.

Lemma merge_skips_unknown_prefix_witness :
  byte0 (Label unknownTag) = Some "X"%char /\
  knownPrefix "X" = false /\
  (forall st, mergeStep st unknownTag = Some st) /\
  (forall pre post,
     mergeEntities (pre ++ unknownTag :: post) = mergeEntities (pre ++ post)).
Proof.
  split; [reflexivity|]. split; [reflexivity|].
  apply (merge_skips_unknown_prefix unknownTag "X"); reflexivity.
Defined.

Lemma tagged_eq c token :
  tagged c token = true -> byte0 (Label token) = Some c.
Proof.
  unfold tagged. destruct (byte0 (Label token)) as [c'|]; [|done].
  intros Hc. apply Ascii.eqb_eq in Hc. by subst.
Qed.

(** What one iteration does to the output: one token more at an [O], [S]
    or [E] tag, nothing otherwise. *)
Lemma mergeStep_output st token st' :
  mergeStep st token = Some st' ->
  if emits token
  then exists out, newTokens st' = newTokens st ++ [out]
  else newTokens st' = newTokens st.
Proof.
  unfold mergeStep, emits, tagged. destruct (byte0 (Label token)) as [c|]; [|done].
  destruct (Ascii.eqb c "O") eqn:HO; simpl.
  { intros [= <-]. simpl. eauto. }
  destruct (Ascii.eqb c "S") eqn:HS; simpl.
  { destruct (slice2 (Label token)); [|done]. intros [= <-]. simpl. eauto. }
  destruct (Ascii.eqb c "B") eqn:HB.
  { apply Ascii.eqb_eq in HB. subst c. simpl.
    destruct (slice2 (Label token)); [|done]. by intros [= <-]. }
  destruct (Ascii.eqb c "I") eqn:HI.
  { apply Ascii.eqb_eq in HI. subst c. simpl. by intros [= <-]. }
  destruct (Ascii.eqb c "E") eqn:HE; simpl.
  { intros [= <-]. simpl. eauto. }
  by intros [= <-].
Qed.

(** Away from an [E] tag the output grows by what the token contributes
    on its own, whatever the accumulator holds. *)
Lemma mergeStep_not_E st token :
  labelOk token = true -> tagged "E" token = false ->
  exists st', mergeStep st token = Some st' /\
              newTokens st' = newTokens st ++ standalone token.
Proof.
  unfold labelOk, tagged, mergeStep, standalone.
  destruct (byte0 (Label token)) as [c|]; [|done].
  intros Hok HE. rewrite HE.
  destruct (Ascii.eqb c "O"); [eauto|].
  destruct (Ascii.eqb c "S"); simpl in *.
  { destruct (slice2 (Label token)); [eauto|done]. }
  destruct (Ascii.eqb c "B"); simpl in *.
  { destruct (slice2 (Label token)); [|done].
    eexists; split; [done|]. simpl. by rewrite app_nil_r. }
  destruct (Ascii.eqb c "I"); eexists; (split; [done|]); simpl; by rewrite app_nil_r.
Qed.

Lemma mergeLoop_not_E rest st :
  forallb (fun t => labelOk t && negb (tagged "E" t)) rest = true ->
  exists st', mergeLoop st rest = Some st' /\
              newTokens st' = newTokens st ++ flat_map standalone rest.
Proof.
  revert st. induction rest as [|t ts IH]; intros st Hrest; simpl in *.
  { exists st. by rewrite app_nil_r. }
  apply andb_prop in Hrest as [Ht Hts]. apply andb_prop in Ht as [Hok HE].
  apply negb_true_iff in HE.
  destruct (mergeStep_not_E st t Hok HE) as (st1 & -> & Hout).
  destruct (IH st1 Hts) as (st' & -> & Hout').
  exists st'. split; [done|]. by rewrite Hout', Hout, <- app_assoc.
Qed.

(** C10: an iteration appends one output token when the tag starts with
    O, S or E and none otherwise; so when a [B] token is followed by no
    [E] token up to the end of the sequence, the output is the output of
    the tokens before it followed by what the [O] and [S] tokens after it
    contribute: the [B] token and the tokens of its entity are absent. *)
Theorem merge_emits_only_on_O_S_E pre b rest out :
  mergeEntities pre = Some out ->
  tagged "B" b = true ->
  labelOk b = true ->
  forallb (fun t => labelOk t && negb (tagged "E" t)) rest = true ->
  (forall st token st',
     mergeStep st token = Some st' ->
     if emits token
     then exists o, newTokens st' = newTokens st ++ [o]
     else newTokens st' = newTokens st) /\
  mergeEntities (pre ++ b :: rest) = Some (out ++ flat_map standalone rest).
Proof.
  intros Hpre Hb Hok Hrest. split; [apply mergeStep_output|].
  unfold mergeEntities in *. rewrite mergeLoop_app.
  destruct (mergeLoop initMerge pre) as [st|]; simpl in *; [|done].
  injection Hpre as <-.
  assert (HE : tagged "E" b = false).
  { apply tagged_eq in Hb. unfold tagged. by rewrite Hb. }
  destruct (mergeStep_not_E st b Hok HE) as (st1 & -> & Hout).
  assert (Hnil : standalone b = []).
  { apply tagged_eq in Hb. unfold standalone. by rewrite Hb. }
  rewrite Hnil, app_nil_r in Hout.
  destruct (mergeLoop_not_E rest st1 Hrest) as (st' & -> & Hout').
  simpl. by rewrite Hout', Hout.
Qed.

Lemma merge_emits_only_on_O_S_E_witness :
  mergeEntities openEntity =
  Some [ mkTokenLabel "in" (mkOffsets 0 2) "O";
         mkTokenLabel "Bob" (mkOffsets 12 15) "PER" ].
Proof.
  refine (proj2 (merge_emits_only_on_O_S_E
                   [mkTokenLabel "in" (mkOffsets 0 2) "O"]
                   (mkTokenLabel "New" (mkOffsets 3 6) "B-LOC")
                   [mkTokenLabel "York" (mkOffsets 7 11) "I-LOC";
                    mkTokenLabel "Bob" (mkOffsets 12 15) "S-PER"]
                   [mkTokenLabel "in" (mkOffsets 0 2) "O"] _ _ _ _));
    reflexivity.
Defined.
End LabelDecoder.

(** ** RAN *)

Section RanFacts.
Import Ran.
Context {Node : Type} `{Graph Node}.

Lemma ran_LastState_snoc (m : Model Node) states s :
  LastState (mkProcessor m (states ++ [s])) = s.
Proof.
  unfold LastState. simpl. rewrite length_app. simpl.
  replace (length states + 1)%nat with (S (length states)) by lia.
  by rewrite lookup_app_r, Nat.sub_diag.
Qed.

Lemma ran_Forward_States (p : Processor Node) xs :
  length (States (snd (Forward p xs))) = (length (States p) + length xs)%nat /\
  length (fst (Forward p xs)) = length xs.
Proof.
  revert p. induction xs as [|x xs IH]; intros p; simpl; [split; [lia|done]|].
  specialize (IH (mkProcessor (model p) (States p ++ [Some (forward p x)]))).
  destruct (Forward _ xs) as [ys p'']. simpl in *.
  rewrite length_app in IH. simpl in IH. lia.
Qed.

Lemma ran_SetInitialState_fatal (p : Processor Node) state :
  (0 < length (States p))%nat ->
  SetInitialState p state =
  Fatal "ran: the initial state must be set before any input".
Proof.
  intros Hlen. unfold SetInitialState.
  by destruct (Nat.ltb_spec 0 (length (States p))); [|lia].
Qed.

(** With a previous state, the forget term multiplies the previous
    output: [prev] returns the field [Y] for both [yPrev] and [cPrev]. *)
Lemma ran_forward_with_previous (p : Processor Node) (x : Node) sPrev y :
  LastState p = Some sPrev ->
  Y sPrev = Some y ->
  let m := model p in
  let inG := Sigmoid (Add (Add (Mul (WIn m) x) (Mul (WInRec m) y)) (BIn m)) in
  let forG := Sigmoid (Add (Add (Mul (WFor m) x) (Mul (WForRec m) y)) (BFor m)) in
  let cand := Add (Mul (WCand m) x) (BCand m) in
  let c := Add (Prod inG cand) (Prod forG y) in
  forward p x = mkState (Some inG) (Some forG) (Some cand) (Some c) (Some (Tanh c)).
Proof.
  intros Hlast Hy. unfold forward, prev. by rewrite Hlast, Hy.
Qed.

(** C7: on the first step (no previous state) the recurrent term of each
    gate is left out, so that the gate is [sigmoid(W.x + B)], and the
    cell value is [inG * cand] with no forget term; the output is
    [tanh] of it. *)
Theorem ran_forward_first_step (p : Processor Node) (x : Node) :
  LastState p = None ->
  let m := model p in
  let inG := Sigmoid (Add (Mul (WIn m) x) (BIn m)) in
  let forG := Sigmoid (Add (Mul (WFor m) x) (BFor m)) in
  let cand := Add (Mul (WCand m) x) (BCand m) in
  prev p = (None, None) /\
  Affine (BIn m) (WIn m) x [(WInRec m, None)] = Add (Mul (WIn m) x) (BIn m) /\
  Affine (BFor m) (WFor m) x [(WForRec m, None)] = Add (Mul (WFor m) x) (BFor m) /\
  forward p x =
    mkState (Some inG) (Some forG) (Some cand)
            (Some (Prod inG cand)) (Some (Tanh (Prod inG cand))).
Proof.
  intros Hlast. unfold forward, prev. by rewrite Hlast.
Qed.
End RanFacts.

Lemma ran_forward_first_step_witness :
  Ran.LastState (Ran.NewProc RanExamples.ranModel) = None /\
  Ran.C (Ran.forward (Ran.NewProc RanExamples.ranModel) (EVar "x0")) =
    Some (EProd (ESigmoid (EAdd (EMul (EVar "WIn") (EVar "x0")) (EVar "BIn")))
                (EAdd (EMul (EVar "WCand") (EVar "x0")) (EVar "BCand"))).
Proof.
  split; [reflexivity|].
  destruct (ran_forward_first_step (Ran.NewProc RanExamples.ranModel) (EVar "x0")
              eq_refl) as (_ & _ & _ & ->).
  reflexivity.
Defined.

Lemma sigmoid_0 : sigmoid 0 = (1 / 2)%R.
Proof. unfold sigmoid. rewrite Ropp_0, exp_0. lra. Qed.

(** C1 at [Forward(x0, x1)] on a fresh processor, over the graph of
    expressions: the second step adds [forG * tanh(c0)], the previous
    output, where the claim has [forG * c0], the previous cell value; the
    output is [tanh] of the cell value that was computed. *)
Theorem ran_cell_uses_previous_output :
  Ran.States RanExamples.twoSteps =
    [Some RanExamples.step0; Some RanExamples.step1] /\
  (exists inG cand forG c0,
     Ran.InG RanExamples.step1 = Some inG /\
     Ran.Cand RanExamples.step1 = Some cand /\
     Ran.ForG RanExamples.step1 = Some forG /\
     Ran.C RanExamples.step0 = Some c0 /\
     Ran.Y RanExamples.step0 = Some (ETanh c0) /\
     Ran.C RanExamples.step1 = Some (EAdd (EProd inG cand) (EProd forG (ETanh c0))) /\
     Ran.Y RanExamples.step1 =
       Some (ETanh (EAdd (EProd inG cand) (EProd forG (ETanh c0)))) /\
     RanExamples.specCell RanExamples.step1 RanExamples.step0 =
       Some (EAdd (EProd inG cand) (EProd forG c0))) /\
  Ran.C RanExamples.step1 <>
    RanExamples.specCell RanExamples.step1 RanExamples.step0.
Proof.
  split; [reflexivity|]. split.
  - do 4 eexists. repeat split; reflexivity.
  - vm_compute. intros Heq. discriminate Heq.
Qed.

Lemma tanh_lt_1 x : (tanh x < 1)%R.
Proof.
  unfold tanh, sinh, cosh.
  pose proof (exp_pos x) as Ha. pose proof (exp_pos (- x)) as Hb.
  replace ((exp x - exp (- x)) / 2 / ((exp x + exp (- x)) / 2))%R
    with (1 - 2 * exp (- x) / (exp x + exp (- x)))%R by (field; lra).
  assert (0 < 2 * exp (- x) / (exp x + exp (- x)))%R; [|lra].
  apply Rdiv_lt_0_compat; lra.
Qed.

Lemma sigmoid_pos x : (0 < sigmoid x)%R.
Proof.
  unfold sigmoid. pose proof (exp_pos (- x)). apply Rdiv_lt_0_compat; lra.
Qed.

Lemma sigmoid_neq_half x : (0 < x)%R -> sigmoid x <> (1 / 2)%R.
Proof.
  unfold sigmoid. intros Hx Heq.
  assert (Hlt : (exp (- x) < 1)%R).
  { rewrite <- exp_0. apply exp_increasing. lra. }
  pose proof (exp_pos (- x)) as Hpos.
  assert (Hinv : (1 / (1 + exp (- x)) * (1 + exp (- x)) = 1)%R) by (field; lra).
  rewrite Heq in Hinv. lra.
Qed.

(** The same divergence in numbers. With the candidate bias 2 and every
    other parameter zero, [Forward(0, 0)] on a fresh processor leaves the
    cell value 1 and the output [tanh 1] in the first state; the second
    step computes the cell value [1 + tanh 1 / 2], where
    [inG * cand + forG * cPrev] is 3/2. *)
Lemma ran_cell_encoded_value :
  exists s0 s1 c0 c c',
    Ran.States RanExamples.encodedCell = [Some s0; Some s1] /\
    Ran.C s0 = Some c0 /\ c0 = 1%R /\
    Ran.Y s0 = Some (tanh c0) /\
    Ran.C s1 = Some c /\
    RanExamples.specCell s1 s0 = Some c' /\
    c = (1 + tanh 1 / 2)%R /\ c' = (3 / 2)%R /\ c <> c'.
Proof.
  do 5 eexists. split; [reflexivity|]. split; [reflexivity|].
  assert (Hc0 : (sigmoid (0 * 0 + 0) * (0 * 0 + 2))%R = 1%R).
  { sigmoid_args. rewrite sigmoid_0. lra. }
  split; [exact Hc0|]. split; [reflexivity|]. split; [reflexivity|].
  split; [reflexivity|]. simpl. rewrite Hc0.
  sigmoid_args. rewrite sigmoid_0.
  pose proof (tanh_lt_1 1). repeat split; lra.
Qed.

(** ** Importance scores *)

Section ImportanceFacts.
Import Ran.
Context {Node V F : Type} `{Matrix V F} (Value : Node -> V).

Lemma gateValues_lookup (states : list (option (State Node))) gs k inG forG :
  gateValues Value states = Some gs ->
  gs !! k = Some (inG, forG) ->
  exists s, stateAt states k = Some s /\
            valueOf Value (InG s) = Some inG /\
            valueOf Value (ForG s) = Some forG.
Proof.
  unfold gateValues. intros Hgs Hk. apply mapM_Some in Hgs.
  destruct (Forall2_lookup_r _ _ _ _ _ Hgs Hk) as (os & Hos & Hval).
  destruct os as [s|]; simpl in Hval; [|done]. exists s.
  unfold stateAt. rewrite Hos. simpl.
  destruct (valueOf Value (InG s)) as [a|]; simpl in Hval; [|done].
  destruct (valueOf Value (ForG s)) as [b|]; simpl in Hval; [|done].
  by injection Hval as -> ->.
Qed.

(** The loop multiplies the accumulator by [forG[k]], ..., [forG[1]], in
    that order, and always returns. *)
Lemma scoresLoop_acc (states : list (option (State Node))) gs k acc sc :
  gateValues Value states = Some gs ->
  (k < length gs)%nat ->
  exists sc',
    scoresLoop Value states k acc sc =
    Some (sc', fold_left matProd (rev (take k (drop 1 gs.*2))) acc).
Proof.
  intros Hgs. revert acc sc. induction k as [|k IH]; intros acc sc Hk.
  - destruct (lookup_lt_is_Some_2 gs 0 Hk) as [[inG forG] Hg].
    destruct (gateValues_lookup _ _ _ _ _ Hgs Hg) as (s & Hs & Hi & Hf).
    simpl. rewrite Hs. simpl. rewrite Hi. simpl. rewrite Hf. simpl. eauto.
  - destruct (lookup_lt_is_Some_2 gs (S k) Hk) as [[inG forG] Hg].
    destruct (gateValues_lookup _ _ _ _ _ Hgs Hg) as (s & Hs & Hi & Hf).
    simpl scoresLoop. rewrite Hs. simpl. rewrite Hi. simpl. rewrite Hf. simpl.
    destruct (IH (matProd acc forG) (<[S k:=matMax (matProd inG acc)]> sc))
      as [sc' ->]; [lia|].
    exists sc'. do 2 f_equal.
    assert (Hd : drop 1 gs.*2 !! k = Some forG).
    { rewrite lookup_drop. simpl. rewrite list_lookup_fmap, Hg. done. }
    rewrite (take_S_r _ _ _ Hd), rev_app_distr. done.
Qed.

(** Every state that [forward] returns has both gates, so a history that
    [Forward] has grown keeps its gate values. *)
Lemma ran_Forward_gateValues `{Graph Node} (p : Processor Node) xs :
  is_Some (gateValues Value (States p)) ->
  is_Some (gateValues Value (States (snd (Forward p xs)))).
Proof.
  revert p. induction xs as [|x xs IH]; intros p Hp; simpl; [done|].
  specialize (IH (mkProcessor (model p) (States p ++ [Some (forward p x)]))).
  destruct (Forward _ xs) as [ys p'']. simpl in *. apply IH.
  unfold gateValues in *. apply mapM_is_Some. apply mapM_is_Some in Hp.
  apply Forall_app. split; [done|]. constructor; [|done].
  unfold forward. destruct (prev p) as [yPrev cPrev]. simpl. eauto.
Qed.

(** C2, amended: the accumulator of row [i] after the backward pass is
    the seed [forG[i]] multiplied, in this order, by [forG[i]],
    [forG[i-1]], ..., [forG[1]]; [forG[i]] enters twice when [i > 0],
    [forG[0]] is never multiplied in, and for [i = 0] the accumulator is
    [forG[0]]. *)
Theorem scores_accumulator (p : Processor Node) gs i fi :
  gateValues Value (States p) = Some gs ->
  gs.*2 !! i = Some fi ->
  scoresAcc Value p i =
  Some (fold_left matProd (rev (take i (drop 1 gs.*2))) fi).
Proof.
  intros Hgs Hi. rewrite list_lookup_fmap in Hi.
  destruct (gs !! i) as [[inG forG]|] eqn:Hg; simpl in Hi; [|done].
  injection Hi as ->.
  destruct (gateValues_lookup _ _ _ _ _ Hgs Hg) as (s & Hs & _ & Hf).
  unfold scoresAcc, scoresRun. rewrite Hs. simpl. rewrite Hf. simpl.
  apply lookup_lt_Some in Hg.
  destruct (scoresLoop_acc (States p) gs i fi
              (replicate (length (States p)) scalarZero) Hgs Hg) as [sc' ->].
  done.
Qed.
End ImportanceFacts.

Lemma scores_accumulator_witness :
  Ran.gateValues (fun v : list Q => v) (Ran.States RanExamples.halfQuarter) =
    Some [([1 # 2], [1 # 2]); ([1 # 2], [1 # 4])] /\
  Ran.scoresAcc (fun v : list Q => v) RanExamples.halfQuarter 1 = Some [1 # 16].
Proof.
  split; [reflexivity|].
  exact (scores_accumulator (fun v : list Q => v) RanExamples.halfQuarter
           [([1 # 2], [1 # 2]); ([1 # 2], [1 # 4])] 1 [1 # 4] eq_refl eq_refl).
Defined.

(** The accumulator of row 1 of an encoded sequence with the forget gates
    [sigmoid(0) = 1/2] and [sigmoid(1)]: [sigmoid(1) * sigmoid(1)], which
    is not [sigmoid(0) * sigmoid(1)]. *)
Lemma scores_accumulator_encoded :
  exists gs a b,
    Ran.gateValues (fun v : R => v) (Ran.States RanExamples.encodedForget) = Some gs /\
    Ran.scoresAcc (fun v : R => v) RanExamples.encodedForget 1 = Some a /\
    Ran.forgetProduct gs.*2 1 = Some b /\
    a = (sigmoid 1 * sigmoid 1)%R /\ b = (1 / 2 * sigmoid 1)%R /\ a <> b.
Proof.
  do 3 eexists. split; [reflexivity|]. split; [reflexivity|].
  split; [reflexivity|]. simpl.
  sigmoid_args. rewrite sigmoid_0.
  pose proof (sigmoid_pos 1) as Hpos.
  assert (Hne : sigmoid 1 <> (1 / 2)%R) by (apply sigmoid_neq_half; lra).
  repeat split. intros Heq. apply Hne.
  apply (Rmult_eq_reg_r (sigmoid 1)); lra.
Qed.

(** C2, as stated, fails for the forget gates 1/2 and 1/4 at row 1: the
    accumulator ends as 1/4 * 1/4 = 1/16, the product of [forG[0]] and
    [forG[1]] is 1/8. *)
Lemma scores_accumulator_not_forget_product :
  Ran.gateValues (fun v : list Q => v) (Ran.States RanExamples.halfQuarter) =
    Some [([1 # 2], [1 # 2]); ([1 # 2], [1 # 4])] /\
  Ran.scoresAcc (fun v : list Q => v) RanExamples.halfQuarter 1 = Some [1 # 16] /\
  Ran.forgetProduct [[1 # 2]; [1 # 4]] 1 = Some [1 # 8] /\
  ~ Forall2 Qeq [1 # 16] [1 # 8].
Proof.
  repeat split; try reflexivity.
  intros Heq. apply Forall2_cons_1 in Heq as [Heq _]. discriminate Heq.
Qed.

(** ** DeltaRNN *)

Section DeltaRNNFacts.
Import DeltaRNN.
Context {Node : Type} `{Graph Node}.

Lemma deltarnn_Forward_States (p : Processor Node) xs :
  length (States (snd (Forward p xs))) = (length (States p) + length xs)%nat /\
  length (fst (Forward p xs)) = length xs.
Proof.
  revert p. induction xs as [|x xs IH]; intros p; simpl; [split; [lia|done]|].
  specialize (IH (mkProcessor (model p) (States p ++ [Some (forward p x)]))).
  destruct (Forward _ xs) as [ys p'']. simpl in *.
  rewrite length_app in IH. simpl in IH. lia.
Qed.

Lemma deltarnn_SetInitialState_fatal (p : Processor Node) state :
  (0 < length (States p))%nat ->
  SetInitialState p state =
  Fatal "deltarnn: the initial state must be set before any input".
Proof.
  intros Hlen. unfold SetInitialState.
  by destruct (Nat.ltb_spec 0 (length (States p))); [|lia].
Qed.

(** C5: with a previous output [yPrev], the step computes [wx = W.x],
    [wyRec = WRec.yPrev], [d1 = Beta1 * wx + Beta2 * wyRec],
    [d2 = Alpha * wx * wyRec], [c = tanh(d1 + d2 + B)],
    [partitionGate = sigmoid(wx + BPart)] and
    [y = tanh(partitionGate * c + (1 - partitionGate) * yPrev)]. *)
Theorem deltarnn_forward_with_previous (p : Processor Node) (x yPrev : Node) :
  prev p = Some yPrev ->
  let m := model p in
  let wx := Mul (W m) x in
  let wyRec := Mul (WRec m) yPrev in
  let d1 := Add (Prod (Beta1 m) wx) (Prod (Beta2 m) wyRec) in
  let d2 := Prod (Prod (Alpha m) wx) wyRec in
  let c := Tanh (Add (Add d1 d2) (B m)) in
  let partitionGate := Sigmoid (Add wx (BPart m)) in
  let y := Tanh (Add (Prod partitionGate c)
                     (Prod (Sub (NewScalar 1) partitionGate) yPrev)) in
  forward p x = mkState (Some d1) (Some d2) (Some c) (Some partitionGate) (Some y).
Proof.
  intros Hprev. unfold forward. by rewrite Hprev.
Qed.

(** C6: on the first step (no previous output) the output is
    [tanh(partitionGate * tanh(Beta1 * (W.x) + B))] with
    [partitionGate = sigmoid(W.x + BPart)]; the field [D2] stays nil and
    no interpolation term is added. *)
Theorem deltarnn_forward_first_step (p : Processor Node) (x : Node) :
  prev p = None ->
  let m := model p in
  let wx := Mul (W m) x in
  let d1 := Prod (Beta1 m) wx in
  let c := Tanh (Add d1 (B m)) in
  let partitionGate := Sigmoid (Add wx (BPart m)) in
  forward p x =
    mkState (Some d1) None (Some c) (Some partitionGate)
            (Some (Tanh (Prod partitionGate c))) /\
  Y (forward p x) =
    Some (Tanh (Prod (Sigmoid (Add (Mul (W m) x) (BPart m)))
                     (Tanh (Add (Prod (Beta1 m) (Mul (W m) x)) (B m))))).
Proof.
  intros Hprev. unfold forward. by rewrite Hprev.
Qed.
End DeltaRNNFacts.

Lemma deltarnn_forward_with_previous_witness :
  DeltaRNN.prev DeltaRNNExamples.oneStep =
    DeltaRNN.Y (DeltaRNN.forward (DeltaRNN.NewProc DeltaRNNExamples.deltaModel)
                                 (EVar "x0")) /\
  DeltaRNN.D2 (DeltaRNN.forward DeltaRNNExamples.oneStep (EVar "x1")) =
  Some (EProd (EProd (EVar "Alpha") (EMul (EVar "W") (EVar "x1")))
              (EMul (EVar "WRec")
                    (ETanh (EProd (ESigmoid (EAdd (EMul (EVar "W") (EVar "x0"))
                                                  (EVar "BPart")))
                                  (ETanh (EAdd (EProd (EVar "Beta1")
                                                      (EMul (EVar "W") (EVar "x0")))
                                               (EVar "B"))))))).
Proof.
  split; [reflexivity|].
  rewrite (deltarnn_forward_with_previous DeltaRNNExamples.oneStep (EVar "x1") _ eq_refl).
  reflexivity.
Defined.

Lemma deltarnn_forward_first_step_witness :
  DeltaRNN.prev (DeltaRNN.NewProc DeltaRNNExamples.deltaModel) = None /\
  DeltaRNN.Y (DeltaRNN.forward (DeltaRNN.NewProc DeltaRNNExamples.deltaModel) (EVar "x0")) =
  Some (ETanh (EProd (ESigmoid (EAdd (EMul (EVar "W") (EVar "x0")) (EVar "BPart")))
                     (ETanh (EAdd (EProd (EVar "Beta1") (EMul (EVar "W") (EVar "x0")))
                                  (EVar "B"))))).
Proof.
  split; [reflexivity|].
  exact (proj2 (deltarnn_forward_first_step
                  (DeltaRNN.NewProc DeltaRNNExamples.deltaModel) (EVar "x0") eq_refl)).
Defined.

(** ** The initial state *)

(** C8: for the RAN and the DeltaRNN processor alike, [SetInitialState] on
    an empty history returns the processor with the given state as its
    history; on a history that holds a state already (set by an earlier
    [SetInitialState] or appended by [Forward]) it ends in [log.Fatal]
    and there is no processor to go on with. *)
Theorem SetInitialState_precondition (Node : Type) (G : Graph Node) :
  (forall (m : Ran.Model Node) s,
     Ran.SetInitialState (Ran.NewProc m) s = Ok (Ran.mkProcessor m [s])) /\
  (forall (m : Ran.Model Node) s0 ss s,
     Ran.SetInitialState (Ran.mkProcessor m (s0 :: ss)) s =
     Fatal "ran: the initial state must be set before any input") /\
  (forall (p : Ran.Processor Node) x xs s,
     Ran.SetInitialState (snd (Ran.Forward p (x :: xs))) s =
     Fatal "ran: the initial state must be set before any input") /\
  (forall (m : DeltaRNN.Model Node) s,
     DeltaRNN.SetInitialState (DeltaRNN.NewProc m) s = Ok (DeltaRNN.mkProcessor m [s])) /\
  (forall (m : DeltaRNN.Model Node) s0 ss s,
     DeltaRNN.SetInitialState (DeltaRNN.mkProcessor m (s0 :: ss)) s =
     Fatal "deltarnn: the initial state must be set before any input") /\
  (forall (p : DeltaRNN.Processor Node) x xs s,
     DeltaRNN.SetInitialState (snd (DeltaRNN.Forward p (x :: xs))) s =
     Fatal "deltarnn: the initial state must be set before any input").
Proof.
  repeat split; try done.
  - intros p x xs s. apply ran_SetInitialState_fatal.
    destruct (ran_Forward_States p (x :: xs)) as [-> _]. simpl. lia.
  - intros p x xs s. apply deltarnn_SetInitialState_fatal.
    destruct (deltarnn_Forward_States p (x :: xs)) as [-> _]. simpl. lia.
Qed.

(** * Further properties *)

(** ** Label decoder: panics, output size, entity runs *)

Section LabelDecoderMore.
Import SequenceLabeler.

Lemma mergeStep_panics st token :
  labelOk token = false -> mergeStep st token = None.
Proof.
  unfold labelOk, mergeStep. destruct (byte0 (Label token)) as [c|]; [|done].
  destruct (Ascii.eqb c "O") eqn:HO.
  { apply Ascii.eqb_eq in HO. by subst c. }
  destruct (Ascii.eqb c "S"); simpl.
  { by destruct (slice2 (Label token)). }
  destruct (Ascii.eqb c "B"); simpl; [|done].
  by destruct (slice2 (Label token)).
Qed.

Lemma mergeLoop_returns_iff tokens st :
  is_Some (mergeLoop st tokens) <-> forallb labelOk tokens = true.
Proof.
  split; [|apply mergeLoop_total].
  revert st. induction tokens as [|t ts IH]; intros st Hsome; simpl in *; [done|].
  destruct (labelOk t) eqn:Hok; simpl.
  - destruct (mergeStep st t) as [st'|]; [by eapply IH|by destruct Hsome].
  - rewrite (mergeStep_panics st t Hok) in Hsome. by destruct Hsome.
Qed.

Lemma mergeEntities_is_Some tokens :
  is_Some (mergeEntities tokens) <-> forallb labelOk tokens = true.
Proof.
  rewrite <- (mergeLoop_returns_iff tokens initMerge). unfold mergeEntities.
  destruct (mergeLoop initMerge tokens); simpl; split; intros [x Hx]; eauto; done.
Qed.

(** [mergeEntities] returns exactly on the sequences in which every tag
    has a first byte and every [S] and [B] tag has at least two bytes; on
    any other sequence it panics, whatever the tokens before and after
    the offending one are. *)
Theorem mergeEntities_returns_iff tokens :
  is_Some (mergeEntities tokens) <-> forallb labelOk tokens = true.
Proof. exact (mergeEntities_is_Some tokens). Qed.

Lemma mergeLoop_length tokens st st' :
  mergeLoop st tokens = Some st' ->
  length (newTokens st') =
  (length (newTokens st) + length (List.filter emits tokens))%nat.
Proof.
  revert st. induction tokens as [|t ts IH]; intros st Hloop; simpl in *.
  { injection Hloop as <-. lia. }
  destruct (mergeStep st t) as [st1|] eqn:Hstep; [|done].
  apply IH in Hloop. rewrite Hloop.
  pose proof (mergeStep_output st t st1 Hstep) as Hout.
  destruct (emits t); simpl.
  - destruct Hout as [o ->]. rewrite length_app. simpl. lia.
  - rewrite Hout. lia.
Qed.

(** The output of [mergeEntities] has one token for each input token whose
    tag starts with O, S or E, and no other. *)
Theorem mergeEntities_length tokens out :
  mergeEntities tokens = Some out ->
  length out = length (List.filter emits tokens).
Proof.
  unfold mergeEntities. intros Hout.
  destruct (mergeLoop initMerge tokens) as [st|] eqn:Hloop; [|done].
  injection Hout as <-. by rewrite (mergeLoop_length _ _ _ Hloop).
Qed.

Lemma mergeEntities_length_witness :
  mergeEntities bobInNewYorkCity =
    Some [ mkTokenLabel "Bob" (mkOffsets 0 3) "PER";
           mkTokenLabel "in" (mkOffsets 4 6) "O";
           mkTokenLabel "New York City" (mkOffsets 7 20) "LOC" ] /\
  length [ mkTokenLabel "Bob" (mkOffsets 0 3) "PER";
           mkTokenLabel "in" (mkOffsets 4 6) "O";
           mkTokenLabel "New York City" (mkOffsets 7 20) "LOC" ] = 3%nat.
Proof.
  split; [reflexivity|].
  exact (mergeEntities_length bobInNewYorkCity _ eq_refl).
Defined.

Lemma mergeStep_I st token :
  tagged "I" token = true ->
  mergeStep st token =
  Some (mkMergeState (newTokens st) (buf st) (text st ++ " " ++ String_ token)%string).
Proof.
  intros Ht. apply tagged_eq in Ht. unfold mergeStep. by rewrite Ht.
Qed.

Lemma mergeLoop_inside inner st :
  forallb (tagged "I") inner = true ->
  mergeLoop st inner =
  Some (mkMergeState (newTokens st) (buf st)
          (fold_left (fun acc t => (acc ++ " " ++ String_ t)%string) inner (text st))).
Proof.
  revert st. induction inner as [|t ts IH]; intros st Hin; simpl in *.
  { by destruct st. }
  apply andb_prop in Hin as [Ht Hts].
  rewrite (mergeStep_I st t Ht). by rewrite IH.
Qed.

(** A run [B I ... I E] is merged into one entity, appended to the output
    of the tokens before it: its text is the texts of the run joined by
    single spaces, its start offset that of the [B] token, its end offset
    that of the [E] token, and its type that of the [B] tag; the types in
    the [I] and [E] tags are not looked at. *)
Theorem mergeEntities_run pre out b inner e ty :
  mergeEntities pre = Some out ->
  tagged "B" b = true ->
  slice2 (Label b) = Some ty ->
  forallb (tagged "I") inner = true ->
  tagged "E" e = true ->
  mergeEntities (pre ++ b :: inner ++ [e]) =
  Some (out ++ [mkTokenLabel (joinText b (inner ++ [e]))
                             (mkOffsets (Start (Offsets b)) (End_ (Offsets e)))
                             ty]).
Proof.
  intros Hpre Hb Hty Hin He. unfold mergeEntities in *.
  rewrite mergeLoop_app.
  destruct (mergeLoop initMerge pre) as [st|]; simpl in *; [|done].
  injection Hpre as <-.
  apply tagged_eq in Hb. apply tagged_eq in He.
  unfold mergeStep at 1. rewrite Hb, Hty. simpl.
  rewrite mergeLoop_app, (mergeLoop_inside inner _ Hin). simpl.
  unfold mergeStep. rewrite He. simpl.
  unfold joinText. by rewrite fold_left_app.
Qed.

Lemma mergeEntities_run_witness :
  mergeEntities bobInNewYorkCity =
  Some [ mkTokenLabel "Bob" (mkOffsets 0 3) "PER";
         mkTokenLabel "in" (mkOffsets 4 6) "O";
         mkTokenLabel "New York City" (mkOffsets 7 20) "LOC" ].
Proof.
  exact (mergeEntities_run
           [ mkTokenLabel "Bob" (mkOffsets 0 3) "S-PER";
             mkTokenLabel "in" (mkOffsets 4 6) "O" ]
           [ mkTokenLabel "Bob" (mkOffsets 0 3) "PER";
             mkTokenLabel "in" (mkOffsets 4 6) "O" ]
           (mkTokenLabel "New" (mkOffsets 7 10) "B-LOC")
           [ mkTokenLabel "York" (mkOffsets 11 15) "I-LOC" ]
           (mkTokenLabel "City" (mkOffsets 16 20) "E-LOC")
           "LOC" eq_refl eq_refl eq_refl eq_refl eq_refl).
Defined.

Lemma mergeLoop_outside tokens st :
  forallb (tagged "O") tokens = true ->
  mergeLoop st tokens =
  Some (mkMergeState (newTokens st ++ tokens) (buf st) (text st)).
Proof.
  revert st. induction tokens as [|t ts IH]; intros st Hall; simpl in *.
  { rewrite app_nil_r. by destruct st. }
  apply andb_prop in Hall as [Ht Hts]. apply tagged_eq in Ht.
  unfold mergeStep. rewrite Ht. simpl. rewrite IH by done. simpl.
  by rewrite <- app_assoc.
Qed.

(** A sequence in which every tag starts with O is returned as it is by
    [mergeEntities]; when every tag is exactly [O], filtering it, merged
    or not, leaves nothing. *)
Theorem mergeEntities_outside_only tokens :
  forallb (tagged "O") tokens = true ->
  mergeEntities tokens = Some tokens /\
  (forallb (fun t => String.eqb (Label t) "O") tokens = true ->
   filterNotEntities tokens = [] /\
   filterNotEntities <$> mergeEntities tokens = Some []).
Proof.
  intros Hall.
  assert (Hm : mergeEntities tokens = Some tokens).
  { unfold mergeEntities. by rewrite mergeLoop_outside. }
  split; [done|]. intros HO.
  assert (Hf : filterNotEntities tokens = []).
  { clear Hall Hm. induction tokens as [|t ts IH]; simpl in *; [done|].
    apply andb_prop in HO as [-> Hts]. simpl. by apply IH. }
  split; [done|]. rewrite Hm. simpl. by rewrite Hf.
Qed.

Lemma mergeEntities_outside_only_witness :
  mergeEntities (drop 2 newYork) = Some (drop 2 newYork) /\
  filterNotEntities (drop 2 newYork) = [].
Proof.
  destruct (mergeEntities_outside_only (drop 2 newYork) eq_refl) as [Hm Hf].
  split; [exact Hm|]. exact (proj1 (Hf eq_refl)).
Defined.

Lemma filterNotEntities_labels tokens :
  Forall (fun t => Label t <> "O") (filterNotEntities tokens).
Proof.
  apply List.Forall_forall. intros t Ht. apply List.filter_In in Ht as [_ Ht].
  apply negb_true_iff in Ht. intros Heq. rewrite Heq in Ht. done.
Qed.


Lemma mergeStep_stray st token st' :
  tagged "B" token = false ->
  mergeStep st token = Some st' ->
  Label (buf st) = "" -> Start (Offsets (buf st)) = 0%Z ->
  (text st = "" \/ exists r, text st = String " " r) ->
  (Label (buf st') = "" /\ Start (Offsets (buf st')) = 0%Z /\
   (text st' = "" \/ exists r, text st' = String " " r)) /\
  exists new, newTokens st' = newTokens st ++ new /\
              Forall (fun o => In o (standalone token) \/ strayEntity o) new.
Proof.
  unfold tagged, mergeStep, standalone.
  destruct (byte0 (Label token)) as [c|]; [|done].
  intros HB Hstep Hl Hs Ht.
  assert (Htext : exists r, (text st ++ " " ++ String_ token)%string = String " " r).
  { destruct Ht as [-> | [r ->]]; simpl; eauto. }
  destruct (Ascii.eqb c "O").
  { injection Hstep as <-. simpl. split; [done|].
    eexists; split; [done|]. repeat constructor. }
  destruct (Ascii.eqb c "S").
  { destruct (slice2 (Label token)); [|done]. injection Hstep as <-. simpl.
    split; [done|]. eexists; split; [done|]. repeat constructor. }
  rewrite HB in Hstep.
  destruct (Ascii.eqb c "I").
  { injection Hstep as <-. simpl. split; [eauto|].
    exists []. by rewrite app_nil_r. }
  destruct (Ascii.eqb c "E").
  { injection Hstep as <-. simpl. split; [eauto|].
    eexists; split; [done|]. constructor; [|done]. right. done. }
  injection Hstep as <-. split; [done|]. exists []. by rewrite app_nil_r.
Qed.

Lemma mergeLoop_stray tokens st st' :
  forallb (fun t => negb (tagged "B" t)) tokens = true ->
  mergeLoop st tokens = Some st' ->
  Label (buf st) = "" -> Start (Offsets (buf st)) = 0%Z ->
  (text st = "" \/ exists r, text st = String " " r) ->
  exists new, newTokens st' = newTokens st ++ new /\
              Forall (fun o => In o (flat_map standalone tokens) \/ strayEntity o) new.
Proof.
  revert st. induction tokens as [|t ts IH]; intros st HB Hloop Hl Hs Ht; simpl in *.
  { injection Hloop as <-. exists []. by rewrite app_nil_r. }
  apply andb_prop in HB as [Hb Hbs]. apply negb_true_iff in Hb.
  destruct (mergeStep st t) as [st1|] eqn:Hstep; [|done].
  destruct (mergeStep_stray st t st1 Hb Hstep Hl Hs Ht)
    as ((Hl1 & Hs1 & Ht1) & new1 & Hn1 & Hf1).
  destruct (IH st1 Hbs Hloop Hl1 Hs1 Ht1) as (new2 & Hn2 & Hf2).
  exists (new1 ++ new2). split; [by rewrite Hn2, Hn1, <- app_assoc|].
  apply Forall_app. split.
  - eapply Forall_impl; [exact Hf1|]. intros o [Ho|Ho]; [left|by right].
    apply in_or_app. by left.
  - eapply Forall_impl; [exact Hf2|]. intros o [Ho|Ho]; [left|by right].
    apply in_or_app. by right.
Qed.

(** The tolerance for malformed input: in a sequence without any [B] tag
    nothing is validated, and every output token is either what an [O] or
    [S] token contributes on its own, or an entity that an [E] tag cut
    from the never-set accumulator: the empty type, the start offset 0
    and a text with a leading space. *)
Theorem mergeEntities_without_B tokens out :
  forallb (fun t => negb (tagged "B" t)) tokens = true ->
  mergeEntities tokens = Some out ->
  Forall (fun o => In o (flat_map standalone tokens) \/ strayEntity o) out.
Proof.
  unfold mergeEntities. intros HB Hout.
  destruct (mergeLoop initMerge tokens) as [st|] eqn:Hloop; [|done].
  injection Hout as <-.
  destruct (mergeLoop_stray tokens initMerge st HB Hloop) as (new & -> & Hf);
    simpl; eauto.
Qed.

Lemma mergeEntities_without_B_witness :
  mergeEntities strayEnd =
    Some [ mkTokenLabel " York" (mkOffsets 0 8) "";
           mkTokenLabel "is" (mkOffsets 9 11) "O" ] /\
  Forall (fun o => In o (flat_map standalone strayEnd) \/ strayEntity o)
         [ mkTokenLabel " York" (mkOffsets 0 8) "";
           mkTokenLabel "is" (mkOffsets 9 11) "O" ].
Proof.
  split; [reflexivity|].
  exact (mergeEntities_without_B strayEnd _ eq_refl eq_refl).
Defined.
End LabelDecoderMore.

(** ** Sequence labeler: [Forward] and [Analyze] *)

Section LabelerFacts.
Import SequenceLabeler.
Variable Tokenize : string -> list StringOffsetsPair.
Variable Predict : list string -> list Z.
Variable Labels : list string.

Lemma labelOk_tagOk t : labelOk t = tagOk (Label t).
Proof. by destruct t. Qed.

(** The loop keeps the length of [result], writes the positions
    [i .. i + len(prediction) - 1] and leaves the others alone. *)
Lemma labelLoop_spec tokens prediction i result r :
  length result = length tokens ->
  (i <= length tokens)%nat ->
  labelLoop Labels tokens i prediction result = Some r ->
  length r = length tokens /\
  (i + length prediction <= length tokens)%nat /\
  (forall j, (j < i \/ i + length prediction <= j)%nat -> r !! j = result !! j) /\
  (forall j k, prediction !! j = Some k ->
     exists token label,
       tokens !! (i + j)%nat = Some token /\ labelAt Labels k = Some label /\
       r !! (i + j)%nat =
         Some (mkTokenLabel (PairString token) (PairOffsets token) label)).
Proof.
  revert i result. induction prediction as [|k ks IH];
    intros i result Hlen Hi0 Hloop; simpl in *.
  { injection Hloop as <-. split; [done|]. split; [lia|]. split; [done|].
    intros j k Hk. by rewrite lookup_nil in Hk. }
  destruct (tokens !! i) as [token|] eqn:Htok; simpl in Hloop; [|done].
  destruct (labelAt Labels k) as [label|] eqn:Hlab; simpl in Hloop; [|done].
  apply lookup_lt_Some in Htok as Hi.
  apply IH in Hloop as (Hr & Hle & Hout & Hin); [|by rewrite length_insert|lia].
  split; [done|]. split; [lia|]. split.
  - intros j Hj. rewrite Hout by lia. apply list_lookup_insert_ne. lia.
  - intros [|j] k' Hk; simpl in Hk.
    + injection Hk as <-. exists token, label. rewrite Nat.add_0_r.
      split; [done|]. split; [done|].
      rewrite Hout by lia. apply list_lookup_insert_eq. lia.
    + destruct (Hin j k' Hk) as (token' & label' & H1 & H2 & H3).
      exists token', label'. by replace (i + S j)%nat with (S i + j)%nat by lia.
Qed.

Lemma labelLoop_total tokens prediction i result :
  (i + length prediction <= length tokens)%nat ->
  Forall (fun k => is_Some (labelAt Labels k)) prediction ->
  is_Some (labelLoop Labels tokens i prediction result).
Proof.
  revert i result. induction prediction as [|k ks IH]; intros i result Hle Hall;
    simpl in *; [eauto|].
  apply Forall_cons in Hall as [[label ->] Hall].
  destruct (lookup_lt_is_Some_2 tokens i) as [token ->]; [lia|]. simpl.
  apply IH; [lia|done].
Qed.

(** What [Forward] returns, when it returns. *)
Lemma Forward_result tokens result :
  let prediction := Predict (PairString <$> tokens) in
  Forward Predict Labels tokens = Some result ->
  (length prediction <= length tokens)%nat /\
  length result = length tokens /\
  (forall i k, prediction !! i = Some k ->
     exists token label,
       tokens !! i = Some token /\ labelAt Labels k = Some label /\
       result !! i =
         Some (mkTokenLabel (PairString token) (PairOffsets token) label)) /\
  (forall i, (length prediction <= i < length tokens)%nat ->
     result !! i = Some zeroTokenLabel).
Proof.
  intros prediction Hr. unfold Forward in Hr. fold prediction in Hr.
  destruct (labelLoop_spec _ _ _ _ _
              (length_replicate (length tokens) zeroTokenLabel) (Nat.le_0_l _) Hr)
    as (Hlen & Hle & Hout & Hin).
  split; [simpl in Hle; lia|]. split; [done|]. split; [exact Hin|].
  intros i Hi. rewrite Hout by (simpl; lia). apply lookup_replicate_2. lia.
Qed.

(** [Forward] returns exactly when the prediction is no longer than the
    token list and every predicted index is an index of [m.Labels]; it
    then returns one labelled token per input token, in order: position
    [i] holds token [i] with the label [m.Labels[prediction[i]]], and a
    position that the prediction does not reach holds the zero
    [TokenLabel]. *)
Theorem Forward_spec tokens :
  let prediction := Predict (PairString <$> tokens) in
  (is_Some (Forward Predict Labels tokens) <->
   (length prediction <= length tokens)%nat /\
   Forall (fun k => is_Some (labelAt Labels k)) prediction) /\
  (forall result,
     Forward Predict Labels tokens = Some result ->
     length result = length tokens /\
     (forall i k, prediction !! i = Some k ->
        exists token label,
          tokens !! i = Some token /\ labelAt Labels k = Some label /\
          result !! i =
            Some (mkTokenLabel (PairString token) (PairOffsets token) label)) /\
     (forall i, (length prediction <= i < length tokens)%nat ->
        result !! i = Some zeroTokenLabel)).
Proof.
  intros prediction. split.
  - unfold Forward. fold prediction. split.
    + intros [r Hr].
      destruct (labelLoop_spec _ _ _ _ _
                  (length_replicate (length tokens) zeroTokenLabel)
                  (Nat.le_0_l _) Hr) as (_ & Hle & _ & Hin).
      split; [simpl in Hle; lia|]. apply Forall_lookup. intros j k Hk.
      destruct (Hin j k Hk) as (? & label & _ & -> & _). eauto.
    + intros [Hle Hall]. apply labelLoop_total; [simpl; lia|done].
  - intros result Hr.
    destruct (Forward_result tokens result Hr) as (_ & Hlen & Hin & Hzero).
    done.
Qed.

Lemma forallb_labelOk_lookup result :
  (forall i t, result !! i = Some t -> labelOk t = true) ->
  forallb labelOk result = true.
Proof.
  intros Hall. apply forallb_forall. intros t Hin.
  apply list_elem_of_In, list_elem_of_lookup in Hin as [i Hi]. eauto.
Qed.

Lemma mergeEntities_le tokens out :
  mergeEntities tokens = Some out -> (length out <= length tokens)%nat.
Proof.
  unfold mergeEntities. intros Hout.
  destruct (mergeLoop initMerge tokens) as [st|] eqn:Hloop; [|done].
  injection Hout as <-. rewrite (mergeLoop_length _ _ _ Hloop). simpl.
  apply List.filter_length_le.
Qed.

(** [Analyze] returns, with either flag set or not, when the prediction
    has one index per token and every predicted label is one that
    [mergeEntities] accepts. It returns no more tokens than the text has,
    and none labelled [O] when [filterNotEntities] is asked for. *)
Theorem Analyze_returns text merge filterNot :
  let tokens := Tokenize text in
  let prediction := Predict (PairString <$> tokens) in
  length prediction = length tokens ->
  Forall (fun k => exists label, labelAt Labels k = Some label /\
                                 tagOk label = true) prediction ->
  exists out,
    Analyze Tokenize Predict Labels text merge filterNot = Some out /\
    (length out <= length tokens)%nat /\
    (filterNot = true -> Forall (fun t => Label t <> "O") out).
Proof.
  intros tokens prediction Hlen Hall. unfold Analyze. fold tokens.
  assert (Hsome : is_Some (Forward Predict Labels tokens)).
  { unfold Forward. fold prediction. apply labelLoop_total; [simpl; lia|].
    eapply Forall_impl; [exact Hall|]. intros k (label & -> & _). eauto. }
  destruct Hsome as [result Hfwd].
  rewrite Hfwd. simpl.
  destruct (Forward_result tokens result Hfwd) as (_ & Hrl & Hin & _).
  fold prediction in Hin.
  assert (Hok : forallb labelOk result = true).
  { apply forallb_labelOk_lookup. intros i t Hi.
    assert (Hlt : (i < length prediction)%nat).
    { apply lookup_lt_Some in Hi. lia. }
    destruct (lookup_lt_is_Some_2 prediction i Hlt) as [k Hk].
    destruct (Hin i k Hk) as (token & label & _ & Hlab & Hr).
    rewrite Hr in Hi. injection Hi as <-.
    rewrite labelOk_tagOk. simpl.
    destruct (proj1 (Forall_lookup _ _) Hall i k Hk) as (label' & Hlab' & Htag).
    rewrite Hlab in Hlab'. by injection Hlab' as ->. }
  assert (Hmerged : exists merged,
             (if merge then mergeEntities result else Some result) = Some merged /\
             (length merged <= length tokens)%nat).
  { destruct merge.
    - destruct (proj2 (mergeEntities_is_Some result) Hok) as [merged Hm].
      exists merged. split; [done|]. apply mergeEntities_le in Hm. lia.
    - exists result. split; [done|]. lia. }
  destruct Hmerged as (merged & -> & Hml). simpl.
  destruct filterNot.
  - exists (filterNotEntities merged). split; [done|]. split.
    + pose proof (List.filter_length_le
                    (fun token => negb (Label token =? "O")%string) merged).
      unfold filterNotEntities. lia.
    + intros _. apply filterNotEntities_labels.
  - exists merged. split; [done|]. split; [done|]. done.
Qed.

(** With merging asked for, [Analyze] panics whenever the prediction and
    the token list differ in length: a longer prediction runs [Forward]
    past the end of the tokens, and a shorter one leaves zero
    [TokenLabel] values behind, whose empty label [mergeEntities]
    indexes. *)
Theorem Analyze_panics text filterNot :
  let tokens := Tokenize text in
  let prediction := Predict (PairString <$> tokens) in
  length prediction <> length tokens ->
  Analyze Tokenize Predict Labels text true filterNot = None.
Proof.
  intros tokens prediction Hlen. unfold Analyze. fold tokens.
  destruct (Forward Predict Labels tokens) as [result|] eqn:Hfwd; simpl; [|done].
  destruct (Forward_result tokens result Hfwd) as (Hle & _ & _ & Hzero).
  fold prediction in Hle, Hzero.
  assert (Hm : mergeEntities result = None).
  { destruct (mergeEntities result) as [merged|] eqn:Hm; [|done].
    assert (Hok : forallb labelOk result = true).
    { apply mergeEntities_is_Some. eauto. }
    rewrite forallb_forall in Hok.
    assert (Hz : result !! length prediction = Some zeroTokenLabel).
    { apply Hzero. lia. }
    assert (Hin : In zeroTokenLabel result).
    { apply list_elem_of_In, list_elem_of_lookup. eauto. }
    apply Hok in Hin. done. }
  by rewrite Hm.
Qed.
End LabelerFacts.

Lemma Forward_spec_witness :
  SequenceLabeler.Forward SequenceLabeler.bobPredict SequenceLabeler.bobLabels
    SequenceLabeler.bobTokens = Some SequenceLabeler.bobInNewYorkCity /\
  length SequenceLabeler.bobInNewYorkCity = length SequenceLabeler.bobTokens.
Proof.
  split; [reflexivity|].
  exact (proj1 (proj2 (Forward_spec SequenceLabeler.bobPredict
                         SequenceLabeler.bobLabels SequenceLabeler.bobTokens)
                      SequenceLabeler.bobInNewYorkCity eq_refl)).
Defined.

Lemma Analyze_returns_witness :
  exists out,
    SequenceLabeler.Analyze (fun _ => SequenceLabeler.bobTokens)
      SequenceLabeler.bobPredict SequenceLabeler.bobLabels "Bob in New York City"
      true true = Some out /\
    (length out <= 5)%nat /\
    (true = true -> Forall (fun t => SequenceLabeler.Label t <> "O") out).
Proof.
  apply (Analyze_returns (fun _ => SequenceLabeler.bobTokens)
           SequenceLabeler.bobPredict SequenceLabeler.bobLabels
           "Bob in New York City" true true).
  - reflexivity.
  - repeat constructor; eexists; (split; [reflexivity|reflexivity]).
Defined.

Lemma Analyze_panics_witness :
  SequenceLabeler.Analyze (fun _ => SequenceLabeler.bobTokens)
    (fun _ => [1; 0]%Z) SequenceLabeler.bobLabels "Bob in New York City"
    true false = None.
Proof.
  apply (Analyze_panics (fun _ => SequenceLabeler.bobTokens)
           (fun _ => [1; 0]%Z) SequenceLabeler.bobLabels
           "Bob in New York City" false).
  simpl. lia.
Defined.

(** ** RAN: the sequence encoder *)

Section RanEncoder.
Import Ran.
Context {Node : Type} `{Graph Node}.

Lemma ran_forward_Y (p : Processor Node) x : is_Some (Y (forward p x)).
Proof. unfold forward. destruct (prev p). simpl. eauto. Qed.

Lemma ran_Forward_unroll (p : Processor Node) xs :
  exists sts,
    snd (Forward p xs) = mkProcessor (model p) (States p ++ (Some <$> sts)) /\
    fst (Forward p xs) = Y <$> sts /\
    length sts = length xs /\
    Forall (fun s => is_Some (Y s)) sts.
Proof.
  revert p. induction xs as [|x xs IH]; intros p; simpl.
  { exists []. simpl. rewrite app_nil_r. by destruct p. }
  destruct (IH (mkProcessor (model p) (States p ++ [Some (forward p x)])))
    as (sts & Hp & Hy & Hlen & Hall).
  destruct (Forward _ xs) as [ys p'']. simpl in *.
  exists (forward p x :: sts). simpl. rewrite Hp, Hy, Hlen, <- app_assoc.
  repeat split; try done. constructor; [apply ran_forward_Y|done].
Qed.


Lemma ran_Forward_concat (p : Processor Node) xs1 xs2 :
  Forward p (xs1 ++ xs2) =
  (fst (Forward p xs1) ++ fst (Forward (snd (Forward p xs1)) xs2),
   snd (Forward (snd (Forward p xs1)) xs2)).
Proof.
  revert p. induction xs1 as [|x xs IH]; intros p; simpl.
  { by destruct (Forward p xs2). }
  rewrite IH.
  by destruct (Forward (mkProcessor (model p) (States p ++ [Some (forward p x)])) xs).
Qed.

(** Two calls of [Forward] on one processor do what one call on the
    concatenated inputs does: the same outputs and the same history. *)
Theorem ran_Forward_app (p : Processor Node) xs1 xs2 :
  Forward p (xs1 ++ xs2) =
  (fst (Forward p xs1) ++ fst (Forward (snd (Forward p xs1)) xs2),
   snd (Forward (snd (Forward p xs1)) xs2)).
Proof. exact (ran_Forward_concat p xs1 xs2). Qed.

(** After [Forward] the last state is the one of the last input: the step
    taken from the processor that the inputs before it left, and its [Y]
    is the last output. *)
Theorem ran_LastState_Forward (p : Processor Node) xs x :
  LastState (snd (Forward p (xs ++ [x]))) =
    Some (forward (snd (Forward p xs)) x) /\
  last (fst (Forward p (xs ++ [x]))) =
    Some (Y (forward (snd (Forward p xs)) x)).
Proof.
  rewrite ran_Forward_concat. simpl.
  split; [apply ran_LastState_snoc|]. by rewrite last_snoc.
Qed.

Lemma ran_prev_Y (p : Processor Node) :
  prev p = (LastState p ≫= Y, LastState p ≫= Y).
Proof. unfold prev. by destruct (LastState p). Qed.

Lemma ran_Forward_same (p p' : Processor Node) xs :
  model p = model p' ->
  LastState p ≫= Y = LastState p' ≫= Y ->
  exists sts,
    fst (Forward p xs) = Y <$> sts /\ fst (Forward p' xs) = Y <$> sts /\
    States (snd (Forward p xs)) = States p ++ (Some <$> sts) /\
    States (snd (Forward p' xs)) = States p' ++ (Some <$> sts).
Proof.
  revert p p'. induction xs as [|x xs IH]; intros p p' Hm Hy; simpl.
  { exists []. simpl. by rewrite !app_nil_r. }
  assert (Hfw : forward p x = forward p' x).
  { unfold forward. by rewrite !ran_prev_Y, Hm, Hy. }
  destruct (IH (mkProcessor (model p) (States p ++ [Some (forward p x)]))
               (mkProcessor (model p') (States p' ++ [Some (forward p' x)])))
    as (sts & H1 & H2 & H3 & H4); [done|by rewrite !ran_LastState_snoc, Hfw|].
  destruct (Forward (mkProcessor (model p) _) xs) as [ys p1].
  destruct (Forward (mkProcessor (model p') _) xs) as [ys' p1']. simpl in *.
  exists (forward p x :: sts). simpl.
  rewrite H1, H2, H3, H4, <- !app_assoc, Hfw. done.
Qed.

(** Of the history, [Forward] reads the field [Y] of the last state and
    nothing else: two processors with the same model whose last states
    have the same output, whatever their cell values, gates and earlier
    states are, return the same outputs and append the same states. *)
Theorem ran_Forward_reads_last_output (p p' : Processor Node) xs :
  model p = model p' ->
  LastState p ≫= Y = LastState p' ≫= Y ->
  fst (Forward p xs) = fst (Forward p' xs) /\
  drop (length (States p)) (States (snd (Forward p xs))) =
  drop (length (States p')) (States (snd (Forward p' xs))).
Proof.
  intros Hm Hy.
  destruct (ran_Forward_same p p' xs Hm Hy) as (sts & -> & -> & -> & ->).
  by rewrite !drop_app_length.
Qed.
End RanEncoder.

Lemma ran_Forward_reads_last_output_witness :
  Ran.C <$> Ran.LastState RanExamples.seededA <>
    Ran.C <$> Ran.LastState RanExamples.seededB /\
  fst (Ran.Forward RanExamples.seededA [EVar "x0"; EVar "x1"]) =
  fst (Ran.Forward RanExamples.seededB [EVar "x0"; EVar "x1"]).
Proof.
  split; [discriminate|].
  exact (proj1 (ran_Forward_reads_last_output RanExamples.seededA
                  RanExamples.seededB [EVar "x0"; EVar "x1"] eq_refl eq_refl)).
Defined.

(** ** DeltaRNN: the sequence encoder *)

Section DeltaRNNEncoder.
Import DeltaRNN.
Context {Node : Type} `{Graph Node}.

Lemma deltarnn_LastState_snoc (m : Model Node) states s :
  LastState (mkProcessor m (states ++ [s])) = s.
Proof.
  unfold LastState. simpl. rewrite length_app. simpl.
  replace (length states + 1)%nat with (S (length states)) by lia.
  by rewrite lookup_app_r, Nat.sub_diag.
Qed.

Lemma deltarnn_forward_Y (p : Processor Node) x : is_Some (Y (forward p x)).
Proof. unfold forward. destruct (prev p); simpl; eauto. Qed.

Lemma deltarnn_forward_D2_nil (p : Processor Node) x :
  D2 (forward p x) = None <-> prev p = None.
Proof. unfold forward. by destruct (prev p). Qed.

Lemma deltarnn_prev_snoc (m : Model Node) states s :
  prev (mkProcessor m (states ++ [Some s])) = Y s.
Proof. unfold prev. by rewrite deltarnn_LastState_snoc. Qed.

Lemma deltarnn_Forward_unroll (p : Processor Node) xs :
  exists sts,
    snd (Forward p xs) = mkProcessor (model p) (States p ++ (Some <$> sts)) /\
    fst (Forward p xs) = Y <$> sts /\
    length sts = length xs /\
    Forall (fun s => is_Some (Y s)) sts /\
    Forall (fun s => is_Some (D2 s)) (drop 1 sts) /\
    (forall s, head sts = Some s -> (D2 s = None <-> prev p = None)).
Proof.
  revert p. induction xs as [|x xs IH]; intros p; simpl.
  { exists []. simpl. rewrite app_nil_r. by destruct p. }
  destruct (IH (mkProcessor (model p) (States p ++ [Some (forward p x)])))
    as (sts & Hp & Hy & Hlen & Hall & Hdrop & Hhead).
  destruct (Forward _ xs) as [ys p'']. simpl in *.
  exists (forward p x :: sts). simpl. rewrite Hp, Hy, Hlen, <- app_assoc.
  split; [done|]. split; [done|]. split; [done|]. split.
  { constructor; [apply deltarnn_forward_Y|done]. }
  split.
  - rewrite drop_0. destruct sts as [|s1 sts']; [constructor|].
    simpl in Hdrop. rewrite drop_0 in Hdrop. constructor; [|done].
    destruct (D2 s1) eqn:HD; [eauto|]. exfalso.
    apply (Hhead s1 eq_refl) in HD. rewrite deltarnn_prev_snoc in HD.
    destruct (deltarnn_forward_Y p x) as [y Hyx]. congruence.
  - intros s0 [= <-]. apply deltarnn_forward_D2_nil.
Qed.


(** In the states that one call of [Forward] appends, the field [D2] is
    nil in the first one exactly when the processor had no previous
    output, and is set in every later one: on a fresh processor the first
    state alone lacks the cross term. *)
Theorem deltarnn_Forward_D2 (p : Processor Node) xs :
  exists sts,
    States (snd (Forward p xs)) = States p ++ (Some <$> sts) /\
    length sts = length xs /\
    (forall s, head sts = Some s -> (D2 s = None <-> prev p = None)) /\
    Forall (fun s => is_Some (D2 s)) (drop 1 sts).
Proof.
  destruct (deltarnn_Forward_unroll p xs) as (sts & Hp & _ & Hlen & _ & Hd & Hh).
  exists sts. by rewrite Hp.
Qed.

(** Two calls of [Forward] on one processor do what one call on the
    concatenated inputs does: the same outputs and the same history. *)
Theorem deltarnn_Forward_app (p : Processor Node) xs1 xs2 :
  Forward p (xs1 ++ xs2) =
  (fst (Forward p xs1) ++ fst (Forward (snd (Forward p xs1)) xs2),
   snd (Forward (snd (Forward p xs1)) xs2)).
Proof.
  revert p. induction xs1 as [|x xs IH]; intros p; simpl.
  { by destruct (Forward p xs2). }
  rewrite IH.
  by destruct (Forward (mkProcessor (model p) (States p ++ [Some (forward p x)])) xs).
Qed.

Lemma deltarnn_Forward_same (p p' : Processor Node) xs :
  model p = model p' ->
  prev p = prev p' ->
  exists sts,
    fst (Forward p xs) = Y <$> sts /\ fst (Forward p' xs) = Y <$> sts /\
    States (snd (Forward p xs)) = States p ++ (Some <$> sts) /\
    States (snd (Forward p' xs)) = States p' ++ (Some <$> sts).
Proof.
  revert p p'. induction xs as [|x xs IH]; intros p p' Hm Hy; simpl.
  { exists []. simpl. by rewrite !app_nil_r. }
  assert (Hfw : forward p x = forward p' x).
  { unfold forward. by rewrite Hm, Hy. }
  destruct (IH (mkProcessor (model p) (States p ++ [Some (forward p x)]))
               (mkProcessor (model p') (States p' ++ [Some (forward p' x)])))
    as (sts & H1 & H2 & H3 & H4); [done|by rewrite !deltarnn_prev_snoc, Hfw|].
  destruct (Forward (mkProcessor (model p) _) xs) as [ys p1].
  destruct (Forward (mkProcessor (model p') _) xs) as [ys' p1']. simpl in *.
  exists (forward p x :: sts). simpl.
  rewrite H1, H2, H3, H4, <- !app_assoc, Hfw. done.
Qed.

(** An initial state that is nil, or whose output is nil, seeds nothing:
    [Forward] returns the outputs and appends the states of a fresh
    processor, behind the entry that [SetInitialState] left in the
    history. *)
Theorem deltarnn_nil_initial_state (m : Model Node) state p xs :
  state ≫= Y = None ->
  SetInitialState (NewProc m) state = Ok p ->
  fst (Forward p xs) = fst (Forward (NewProc m) xs) /\
  States (snd (Forward p xs)) = state :: States (snd (Forward (NewProc m) xs)).
Proof.
  intros Hy [= <-]. simpl.
  destruct (deltarnn_Forward_same (mkProcessor m [state]) (NewProc m) xs)
    as (sts & -> & -> & -> & ->); [done| |done].
  unfold prev, LastState. simpl. destruct state as [s|]; simpl in *; [exact Hy|done].
Qed.
End DeltaRNNEncoder.

Lemma deltarnn_nil_initial_state_witness :
  DeltaRNN.SetInitialState (DeltaRNN.NewProc DeltaRNNExamples.deltaModel) None =
    Ok (DeltaRNN.mkProcessor DeltaRNNExamples.deltaModel [None]) /\
  fst (DeltaRNN.Forward (DeltaRNN.mkProcessor DeltaRNNExamples.deltaModel [None])
         [EVar "x0"]) =
  fst (DeltaRNN.Forward (DeltaRNN.NewProc DeltaRNNExamples.deltaModel) [EVar "x0"]).
Proof.
  split; [reflexivity|].
  exact (proj1 (deltarnn_nil_initial_state DeltaRNNExamples.deltaModel None _
                  [EVar "x0"] eq_refl eq_refl)).
Defined.

(** ** RAN: the table of importance scores *)

Section ImportanceTable.
Import Ran.
Context {Node V F : Type} `{Matrix V F} (Value : Node -> V).

Lemma gateValues_length (states : list (option (State Node))) gs :
  gateValues Value states = Some gs -> length gs = length states.
Proof. unfold gateValues. intros Hgs. symmetry. by eapply length_mapM. Qed.

(** What the loop writes: position [j <= k] gets the largest element of
    [inG[j]] times the accumulator as it stands at [j], positions above
    [k] stay as they were. *)
Lemma scoresLoop_rows (states : list (option (State Node))) gs k acc sc :
  gateValues Value states = Some gs ->
  (k < length gs)%nat ->
  (k < length sc)%nat ->
  exists sc' acc',
    scoresLoop Value states k acc sc = Some (sc', acc') /\
    length sc' = length sc /\
    (forall j inG fg, (j <= k)%nat -> gs !! j = Some (inG, fg) ->
       sc' !! j =
       Some (matMax (matProd inG
               (fold_left matProd (rev (take (k - j) (drop (S j) gs.*2))) acc)))) /\
    (forall j, (k < j)%nat -> sc' !! j = sc !! j).
Proof.
  intros Hgs. revert acc sc. induction k as [|k IH]; intros acc sc Hk Hsc.
  - destruct (lookup_lt_is_Some_2 gs 0 Hk) as [[inG forG] Hg].
    destruct (gateValues_lookup Value _ _ _ _ _ Hgs Hg) as (s & Hs & Hi & Hf).
    simpl. rewrite Hs. simpl. rewrite Hi. simpl. rewrite Hf. simpl.
    do 2 eexists. split; [done|]. split; [by rewrite length_insert|]. split.
    + intros j inG' fg' Hj Hgj. assert (j = 0)%nat as -> by lia.
      rewrite Hg in Hgj. injection Hgj as <- <-. simpl.
      by rewrite list_lookup_insert_eq.
    + intros j Hj. apply list_lookup_insert_ne. lia.
  - destruct (lookup_lt_is_Some_2 gs (S k) Hk) as [[inG forG] Hg].
    destruct (gateValues_lookup Value _ _ _ _ _ Hgs Hg) as (s & Hs & Hi & Hf).
    simpl scoresLoop. rewrite Hs. simpl. rewrite Hi. simpl. rewrite Hf. simpl.
    destruct (IH (matProd acc forG) (<[S k:=matMax (matProd inG acc)]> sc))
      as (sc' & acc' & -> & Hlen & Hlow & Hhigh); [lia|rewrite length_insert; lia|].
    do 2 eexists. split; [done|]. split; [by rewrite Hlen, length_insert|]. split.
    + intros j inG' fg' Hj Hgj.
      destruct (decide (j = S k)) as [->|Hne].
      * rewrite Hhigh by lia. rewrite Hg in Hgj. injection Hgj as <- <-.
        rewrite Nat.sub_diag. simpl. by rewrite list_lookup_insert_eq.
      * rewrite (Hlow j inG' fg') by (done || lia). do 3 f_equal.
        replace (S k - j)%nat with (S (k - j)) by lia.
        assert (Hd : drop (S j) gs.*2 !! (k - j)%nat = Some forG).
        { rewrite lookup_drop. replace (S j + (k - j))%nat with (S k) by lia.
          by rewrite list_lookup_fmap, Hg. }
        by rewrite (take_S_r _ _ _ Hd), rev_app_distr.
    + intros j Hj. rewrite Hhigh by lia. apply list_lookup_insert_ne. lia.
Qed.

(** Row [i] of the table, for a history in which every state has its
    gates. It is as long as the whole history, not [i + 1]: its entry
    [k <= i] is the largest element of [inG[k]] times [forG[i]] times
    [forG[i]], ..., [forG[k+1]], so the diagonal entry is the largest
    element of [inG[i] * forG[i]]; its entries above [i] are zero. *)
Theorem scores_row (p : Processor Node) gs i inGi fi :
  gateValues Value (States p) = Some gs ->
  gs !! i = Some (inGi, fi) ->
  exists row,
    scores Value p i = Some row /\
    length row = length (States p) /\
    row !! i = Some (matMax (matProd inGi fi)) /\
    (forall k inG fg, (k <= i)%nat -> gs !! k = Some (inG, fg) ->
       row !! k =
       Some (matMax (matProd inG
               (fold_left matProd (rev (take (i - k) (drop (S k) gs.*2))) fi)))) /\
    (forall k, (i < k < length (States p))%nat -> row !! k = Some scalarZero).
Proof.
  intros Hgs Hg.
  destruct (gateValues_lookup Value _ _ _ _ _ Hgs Hg) as (s & Hs & _ & Hf).
  pose proof (gateValues_length _ _ Hgs) as Hlen.
  apply lookup_lt_Some in Hg as Hi.
  destruct (scoresLoop_rows (States p) gs i fi
              (replicate (length (States p)) scalarZero) Hgs Hi)
    as (row & acc' & Hloop & Hrl & Hlow & Hhigh).
  { rewrite length_replicate. lia. }
  exists row. unfold scores, scoresRun. rewrite Hs. simpl. rewrite Hf. simpl.
  rewrite Hloop. simpl. split; [done|].
  split; [by rewrite Hrl, length_replicate|]. split.
  - rewrite (Hlow i inGi fi) by done. by rewrite Nat.sub_diag.
  - split; [exact Hlow|]. intros k Hk. rewrite Hhigh by lia.
    apply lookup_replicate_2. lia.
Qed.

Lemma scores_returns (p : Processor Node) gs i :
  gateValues Value (States p) = Some gs ->
  (i < length gs)%nat ->
  is_Some (scores Value p i).
Proof.
  intros Hgs Hi. pose proof (gateValues_length _ _ Hgs) as Hlen.
  destruct (lookup_lt_is_Some_2 gs i Hi) as [[inG fi] Hg].
  destruct (gateValues_lookup Value _ _ _ _ _ Hgs Hg) as (s & Hs & _ & Hf).
  destruct (scoresLoop_rows (States p) gs i fi
              (replicate (length (States p)) scalarZero) Hgs Hi)
    as (row & acc' & Hloop & _).
  { rewrite length_replicate. lia. }
  unfold scores, scoresRun. rewrite Hs. simpl. rewrite Hf. simpl.
  rewrite Hloop. simpl. eauto.
Qed.

Lemma scoresLoop_length (states : list (option (State Node))) k acc sc sc' acc' :
  scoresLoop Value states k acc sc = Some (sc', acc') -> length sc' = length sc.
Proof.
  revert acc sc. induction k as [|k IH]; intros acc sc Hloop;
    simpl in Hloop;
    destruct (stateAt states _) as [s|]; simpl in Hloop; try done;
    destruct (valueOf Value (InG s)) as [a|]; simpl in Hloop; try done;
    destruct (valueOf Value (ForG s)) as [b|]; simpl in Hloop; try done.
  - injection Hloop as <- <-. apply length_insert.
  - apply IH in Hloop. by rewrite Hloop, length_insert.
Qed.

Lemma scoresLoop_reads (states : list (option (State Node))) k acc sc r :
  scoresLoop Value states k acc sc = Some r ->
  forall j, (j <= k)%nat ->
    exists s, stateAt states j = Some s /\
              is_Some (valueOf Value (InG s)) /\ is_Some (valueOf Value (ForG s)).
Proof.
  revert acc sc. induction k as [|k IH]; intros acc sc Hloop j Hj;
    simpl in Hloop;
    destruct (stateAt states _) as [s|] eqn:Hs; simpl in Hloop; try done;
    destruct (valueOf Value (InG s)) as [a|] eqn:Ha; simpl in Hloop; try done;
    destruct (valueOf Value (ForG s)) as [b|] eqn:Hb; simpl in Hloop; try done.
  - assert (j = 0)%nat as -> by lia. exists s. rewrite Ha, Hb. eauto.
  - destruct (decide (j = S k)) as [->|Hne].
    + exists s. rewrite Ha, Hb. eauto.
    + eapply IH; [exact Hloop|lia].
Qed.

Lemma Importance_is_Some (p : Processor Node) :
  is_Some (Importance Value p) <-> is_Some (gateValues Value (States p)).
Proof.
  split.
  - intros Himp. unfold gateValues. apply mapM_is_Some, Forall_lookup.
    intros j os Hj. apply lookup_lt_Some in Hj as Hlt.
    unfold Importance in Himp. apply mapM_is_Some in Himp.
    rewrite Forall_lookup in Himp.
    specialize (Himp (length (States p) - 1)%nat (length (States p) - 1)%nat).
    destruct Himp as [row Hrow].
    { rewrite lookup_seq. split; [done|lia]. }
    unfold scores, scoresRun in Hrow.
    destruct (stateAt (States p) _) as [s|]; simpl in Hrow; [|done].
    destruct (valueOf Value (ForG s)) as [f|]; simpl in Hrow; [|done].
    destruct (scoresLoop _ _ _ _ _) as [r|] eqn:Hloop; [|done].
    destruct (scoresLoop_reads _ _ _ _ _ Hloop j) as (s' & Hs' & [a Ha] & [b Hb]);
      [lia|].
    unfold stateAt in Hs'. rewrite Hj in Hs'. simpl in Hs'. subst os. simpl.
    rewrite Ha. simpl. rewrite Hb. simpl. eauto.
  - intros [gs Hgs]. unfold Importance. apply mapM_is_Some, Forall_lookup.
    intros j i Hj. apply lookup_seq in Hj as [-> Hj]. simpl.
    pose proof (gateValues_length _ _ Hgs) as Hlen.
    apply (scores_returns p gs j Hgs). lia.
Qed.

(** [Importance] returns exactly when every state of the history is
    there with its input and forget gates; a nil state, or one that lacks
    a gate, such as an initial state of which only the output was set,
    makes it panic. When it returns, the table is square: one row per
    state, each as long as the history. *)
Theorem Importance_returns_iff (p : Processor Node) :
  (is_Some (Importance Value p) <-> is_Some (gateValues Value (States p))) /\
  (forall rows, Importance Value p = Some rows ->
     length rows = length (States p) /\
     Forall (fun row => length row = length (States p)) rows).
Proof.
  split; [apply Importance_is_Some|].
  intros rows Hrows. unfold Importance in Hrows.
  pose proof (length_mapM _ _ _ Hrows) as Hlen. rewrite length_seq in Hlen.
  split; [done|]. apply mapM_Some in Hrows.
  apply Forall_lookup. intros j row Hj.
  destruct (Forall2_lookup_r _ _ _ _ _ Hrows Hj) as (i & Hi & Hsc).
  apply lookup_seq in Hi as [-> Hi].
  unfold scores, scoresRun in Hsc.
  destruct (stateAt (States p) _) as [s|]; simpl in Hsc; [|done].
  destruct (valueOf Value (ForG s)) as [f|]; simpl in Hsc; [|done].
  destruct (scoresLoop _ _ _ _ _) as [[sc' acc']|] eqn:Hloop; [|done].
  injection Hsc as <-.
  apply scoresLoop_length in Hloop. by rewrite Hloop, length_replicate.
Qed.

(** On the history that [Forward] builds on a fresh processor,
    [Importance] always returns. After [SetInitialState] with a state
    that is nil or lacks a gate it never does: the seed stays in the
    history and the last row reaches it. *)
Theorem Importance_after_Forward `{Graph Node} (m : Model Node) xs :
  is_Some (Importance Value (snd (Forward (NewProc m) xs))) /\
  (forall state p x,
     (state ≫= InG) = None \/ (state ≫= ForG) = None ->
     SetInitialState (NewProc m) state = Ok p ->
     Importance Value (snd (Forward p (x :: xs))) = None).
Proof.
  split.
  - apply Importance_is_Some, ran_Forward_gateValues. simpl. eauto.
  - intros state p x Hgate Hset.
    assert (Hp : p = mkProcessor m [state]) by (by injection Hset as <-).
    subst p. clear Hset.
    destruct (Importance Value _) as [rows|] eqn:Himp; [|done]. exfalso.
    assert (Hsome : is_Some (gateValues Value
              (States (snd (Forward (mkProcessor m [state]) (x :: xs)))))).
    { apply Importance_is_Some. eauto. }
    destruct (ran_Forward_unroll (mkProcessor m [state]) (x :: xs))
      as (sts & Hst & _). rewrite Hst in Hsome. simpl in Hsome.
    destruct Hsome as [gs Hgs]. unfold gateValues in Hgs. simpl in Hgs.
    destruct state as [s|]; simpl in *; [|done].
    unfold valueOf in Hgs.
    destruct Hgate as [Hg|Hg]; rewrite Hg in Hgs; simpl in Hgs; [done|].
    by destruct (InG s).
Qed.
End ImportanceTable.

Lemma Importance_after_Forward_witness :
  Ran.SetInitialState (Ran.NewProc RanExamples.ranModel)
    (Some (Ran.mkState None None None None (Some (EVar "y")))) =
    Ok (Ran.mkProcessor RanExamples.ranModel
          [Some (Ran.mkState None None None None (Some (EVar "y")))]) /\
  Ran.Importance (F := Q) (fun _ : Expr => [1 # 2])
    (snd (Ran.Forward
            (Ran.mkProcessor RanExamples.ranModel
               [Some (Ran.mkState None None None None (Some (EVar "y")))])
            [EVar "x0"])) = None.
Proof.
  split; [reflexivity|].
  exact (proj2 (Importance_after_Forward (fun _ : Expr => [1 # 2])
                  RanExamples.ranModel [])
               (Some (Ran.mkState None None None None (Some (EVar "y")))) _
               (EVar "x0") (or_introl eq_refl) eq_refl).
Defined.

Lemma scores_row_witness :
  exists row,
    Ran.scores (fun v : list Q => v) RanExamples.halfQuarter 0 = Some row /\
    length row = 2%nat /\
    row !! 0%nat = Some (1 # 4) /\
    row !! 1%nat = Some 0%Q.
Proof.
  destruct (scores_row (fun v : list Q => v) RanExamples.halfQuarter
              [([1 # 2], [1 # 2]); ([1 # 2], [1 # 4])] 0 [1 # 2] [1 # 2]
              eq_refl eq_refl) as (row & Hrow & Hlen & Hdiag & _ & Hzero).
  exists row. split; [exact Hrow|]. split; [exact Hlen|]. split; [exact Hdiag|].
  apply Hzero. simpl. lia.
Defined.
